(** * neo4j-uploader: a shallow embedding of [upload.py]

    The development follows the layout of the source file: the edge
    identifier pattern, the [Neo4jItem] dataclass with its [query_str]
    method, the two statement builders [create_node] and [create_edge],
    the loop of [upload_graph] and the transaction handling of [main].

    Python [str] is modelled by [string] (a text is read as its UTF-8
    bytes: every character the pattern accepts is a single ASCII byte and
    no byte of a multi-byte character belongs to the class, so matching on
    bytes and matching on code points agree).  A Python [dict] is an
    association list in insertion order, because the order of iteration
    decides the emitted text. *)

From Stdlib Require Import String Ascii List Sorted Bool Arith ZArith Lia.
Import ListNotations.
Open Scope list_scope.
Open Scope string_scope.

Set Implicit Arguments.

(** ** Python dictionaries *)

Module Dict.

Definition dict (V : Type) : Type := list (string * V).

Section Ops.
Context {V : Type}.

(** [d.keys()] *)
Definition keys (d : dict V) : list string := map fst d.

(** [d.get(k)]: [None] when the key is absent. *)
Fixpoint get (d : dict V) (k : string) : option V :=
  match d with
  | [] => None
  | (k', v) :: d' => if String.eqb k k' then Some v else get d' k
  end.

(** [k in d] *)
Definition contains (d : dict V) (k : string) : bool :=
  match get d k with Some _ => true | None => false end.

(** [d[k] = v]: an existing key keeps its position, a new key goes last. *)
Fixpoint set (d : dict V) (k : string) (v : V) : dict V :=
  match d with
  | [] => [(k, v)]
  | (k', v') :: d' =>
      if String.eqb k k' then (k', v) :: d' else (k', v') :: set d' k v
  end.

(** [d.update(items)], which is also how a dict display or comprehension
    fills a dictionary: the items are stored one after the other. *)
Definition update (d : dict V) (items : list (string * V)) : dict V :=
  fold_left (fun acc kv => set acc (fst kv) (snd kv)) items d.

(** [{k: v for k, v in items}] *)
Definition of_items (items : list (string * V)) : dict V := update [] items.

(** Every dictionary the interpreter can build has pairwise distinct keys. *)
Definition wf (d : dict V) : Prop := NoDup (keys d).

End Ops.
End Dict.

Import Dict.

(** ** JSON values as [json.load] returns them *)

#[warnings="-register-all"]
Inductive value : Type :=
| VNone
| VBool (b : bool)
| VInt (z : Z)
| VFloat (literal : string)
| VStr (s : string)
| VList (items : list value)
| VDict (items : list (string * value)).

(** [v is not None] *)
Definition is_not_None (v : value) : bool :=
  match v with VNone => false | _ => true end.

(** ** The [Neo4jItem] dataclass and its two subclasses *)

(** [Node] and [Edge] differ only in the class attributes [OPENING] and
    [CLOSING]; the base class, whose attributes are [None], is never
    instantiated by the program. *)
Inductive Neo4jClass : Type := Node | Edge.

Definition OPENING (c : Neo4jClass) : string :=
  match c with Node => "(" | Edge => "[" end.

Definition CLOSING (c : Neo4jClass) : string :=
  match c with Node => ")" | Edge => "]" end.

Record Neo4jItem (c : Neo4jClass) : Type := mkItem {
  label : string;
  properties : dict value
}.

Arguments mkItem {c} _ _.
Arguments label {c} _.
Arguments properties {c} _.

Module Direction.
Inductive t : Type := LEFT | RIGHT.

Definition eqb (a b : t) : bool :=
  match a, b with
  | LEFT, LEFT | RIGHT, RIGHT => true
  | _, _ => false
  end.
End Direction.

Definition DIRECTION_NAME_TABLE : dict Direction.t :=
  [("->", Direction.RIGHT); ("<-", Direction.LEFT)].

(** ** [Neo4jItem.query_str] *)

Section QueryStr.
Context {c : Neo4jClass}.

(** [{k: v for k, v in self.properties.items() if v is not None}] *)
Definition live_properties (self : Neo4jItem c) : dict value :=
  of_items (filter (fun kv => is_not_None (snd kv)) (properties self)).

(** [f"{k}: ${identifier}_{k}"] *)
Definition placeholder (identifier k : string) : string :=
  k ++ ": $" ++ identifier ++ "_" ++ k.

(** [f"{identifier}_{k}"] *)
Definition param_name (identifier k : string) : string :=
  identifier ++ "_" ++ k.

Definition query_str (self : Neo4jItem c) (identifier : string)
  : string * dict value :=
  let properties := live_properties self in
  let start := identifier ++ ": " ++ label self ++ " " in
  let mid :=
    "{" ++ String.concat ", " (map (placeholder identifier) (keys properties))
        ++ "}" in
  let query_str := OPENING c ++ start ++ mid ++ CLOSING c in
  (query_str,
   of_items (map (fun kv => (param_name identifier (fst kv), snd kv))
                 properties)).

End QueryStr.

(** ** The edge identifier pattern

    [NODE_ID_PATTERN = "[a-zA-Z0-9.,\-_ ]+"] and
    [EDGE_REGEX = re.compile(f"({NODE_ID_PATTERN})(<-|->)({NODE_ID_PATTERN})")].
    The matcher below is the backtracking search [re] performs for this
    pattern, anchored at the start of the subject as [Pattern.match] is,
    and with nothing anchoring its end. *)

Definition EDGE_REGEX_pattern : string :=
  "([a-zA-Z0-9.,\-_ ]+)(<-|->)([a-zA-Z0-9.,\-_ ]+)".

(** The character class [[a-zA-Z0-9.,\-_ ]]. *)
Definition NODE_ID_CHAR (ch : ascii) : bool :=
  let n := nat_of_ascii ch in
  (((97 <=? n) && (n <=? 122))      (* a-z *)
   || ((65 <=? n) && (n <=? 90))    (* A-Z *)
   || ((48 <=? n) && (n <=? 57))    (* 0-9 *)
   || (n =? 46) || (n =? 44)        (* . , *)
   || (n =? 45) || (n =? 95)        (* - _ *)
   || (n =? 32))%nat.               (* space *)

(** A greedy [[...]+] followed by the rest of the pattern [k], which
    receives the text the repetition consumed and the remaining subject.
    One character is taken, then the longer repetitions are tried before
    the shorter ones: the engine gives back one character at a time. *)
Fixpoint node_id_plus {R : Type} (k : string -> string -> option R)
  (subject : string) : option R :=
  match subject with
  | String ch rest =>
      if NODE_ID_CHAR ch then
        match node_id_plus (fun g r => k (String ch g) r) rest with
        | Some res => Some res
        | None => k (String ch "") rest
        end
      else None
  | "" => None
  end.

(** The alternation [(<-|->)]: the left branch first, the right branch
    when the left one or what follows it fails. *)
Definition arrow {R : Type} (k : string -> string -> option R)
  (subject : string) : option R :=
  match subject with
  | String a (String b rest) =>
      match
        (if Ascii.eqb a "<" && Ascii.eqb b "-" then k "<-" rest else None)
      with
      | Some res => Some res
      | None =>
          if Ascii.eqb a "-" && Ascii.eqb b ">" then k "->" rest else None
      end
  | _ => None
  end.

(** A successful match: the three groups. *)
Record Match : Type := mkMatch {
  group1 : string;
  group2 : string;
  group3 : string
}.

(** [EDGE_REGEX.match(eid)] *)
Definition EDGE_REGEX_match (eid : string) : option Match :=
  node_id_plus (fun g1 r1 =>
    arrow (fun g2 r2 =>
      node_id_plus (fun g3 _ => Some (mkMatch g1 g2 g3)) r2) r1) eid.

(** ** The transaction

    The exceptions of the [try] block: the two that [upload_graph] raises
    itself, the [KeyError] of a subscript, what [tx.run] raises, and the
    [AttributeError] of [self.properties.items()] in [query_str] when the
    properties of an instance are not a dictionary.

    [tx.run] is a call into the driver.  The store is a parameter: given
    the statements already run in this transaction and the next one, it
    answers [None] when it accepts the statement and [Some msg] when the
    call raises.  The computation threads the list of statements handed to
    [tx.run] so far and stops at the first exception. *)

Record Stmt : Type := mkStmt {
  stmt_query : string;
  stmt_params : dict value
}.

Inductive exn : Type :=
| EdgeNotConforming (eid : string)
| EdgeUnknownNode (eid nid : string)
| KeyError (key : string)
| StoreError (msg : string)
| NoItemsAttribute (owner : value).

(** [type(v).__name__] *)
Definition type_name (v : value) : string :=
  match v with
  | VNone => "NoneType"
  | VBool _ => "bool"
  | VInt _ => "int"
  | VFloat _ => "float"
  | VStr _ => "str"
  | VList _ => "list"
  | VDict _ => "dict"
  end.

(** [str(ex)] *)
Definition exn_str (ex : exn) : string :=
  match ex with
  | EdgeNotConforming eid =>
      "Edge '" ++ eid ++ "' does not seem to conform to '"
        ++ EDGE_REGEX_pattern ++ "'"
  | EdgeUnknownNode eid nid =>
      "Edge '" ++ eid ++ "' uses node '" ++ nid
        ++ "' which cannot be found in the nodes"
  | KeyError key => "'" ++ key ++ "'"
  | StoreError msg => msg
  | NoItemsAttribute owner =>
      "'" ++ type_name owner ++ "' object has no attribute 'items'"
  end.

Inductive result (A : Type) : Type :=
| Ok (a : A)
| Raise (ex : exn).

Arguments Ok {A} _.
Arguments Raise {A} _.

Definition Store : Type := list Stmt -> Stmt -> option string.

Definition Tx (A : Type) : Type := list Stmt -> result A * list Stmt.

Definition ret {A : Type} (a : A) : Tx A := fun log => (Ok a, log).

Definition raise {A : Type} (ex : exn) : Tx A := fun log => (Raise ex, log).

Definition bind {A B : Type} (m : Tx A) (f : A -> Tx B) : Tx B :=
  fun log =>
    match m log with
    | (Ok a, log') => f a log'
    | (Raise ex, log') => (Raise ex, log')
    end.

Declare Scope tx_scope.
Delimit Scope tx_scope with tx.
Notation "x <- m ;; k" := (bind m (fun x => k))
  (at level 61, m at next level, right associativity) : tx_scope.
Notation "m ;; k" := (bind m (fun _ => k))
  (at level 61, right associativity) : tx_scope.
Open Scope tx_scope.

(** [for x in xs: body(x)] *)
Fixpoint for_each {A : Type} (body : A -> Tx unit) (xs : list A) : Tx unit :=
  match xs with
  | [] => ret tt
  | x :: xs' => body x ;; for_each body xs'
  end.

(** [d[k]] *)
Definition subscript {V : Type} (d : dict V) (k : string) : Tx V :=
  match get d k with
  | Some v => ret v
  | None => raise (KeyError k)
  end.

Definition newline : string := String (ascii_of_nat 10) "".

(** [create_node] and [create_edge] build a statement and hand it to
    [tx.run]; the statement each one builds is a function of its arguments
    alone.  The [print] of the statement on standard output is left out. *)

Definition create_node_stmt (node : Neo4jItem Node) : Stmt :=
  let '(node_query_str, params) := query_str node "n" in
  let query := "CREATE " ++ node_query_str in
  mkStmt query params.

Definition create_edge_stmt (node1 node2 : Neo4jItem Node)
  (edge : Neo4jItem Edge) (direction : Direction.t) : Stmt :=
  let '(node1_query_str, node1_params) := query_str node1 "n1" in
  let '(node2_query_str, node2_params) := query_str node2 "n2" in
  let '(edge_query_str, edge_query_params) := query_str edge "n" in
  let left_symbol :=
    if Direction.eqb direction Direction.LEFT then "<-" else "-" in
  let right_symbol :=
    if Direction.eqb direction Direction.RIGHT then "->" else "-" in
  let query :=
    newline ++
    "        MATCH " ++ node1_query_str ++ newline ++
    "        MATCH " ++ node2_query_str ++ newline ++
    "        CREATE (n1)" ++ left_symbol ++ edge_query_str ++ right_symbol
      ++ "(n2)" ++ newline ++
    "    " in
  (* {**node1_params, **node2_params, **edge_query_params} *)
  let combined_params :=
    update (update (update [] node1_params) node2_params) edge_query_params in
  mkStmt query combined_params.

Section Upload.
Variable store : Store.

(** [tx.run(query, params)] *)
Definition tx_run (s : Stmt) : Tx unit :=
  fun log =>
    match store log s with
    | None => (Ok tt, (log ++ [s])%list)
    | Some msg => (Raise (StoreError msg), (log ++ [s])%list)
    end.

Definition create_node (node : Neo4jItem Node) : Tx unit :=
  tx_run (create_node_stmt node).

Definition create_edge (node1 node2 : Neo4jItem Node) (edge : Neo4jItem Edge)
  (direction : Direction.t) : Tx unit :=
  tx_run (create_edge_stmt node1 node2 edge direction).

Definition upload_graph (nodes : dict (Neo4jItem Node))
  (edges : dict (Neo4jItem Edge)) : Tx unit :=
  for_each (fun '(nid, node) => create_node node) nodes ;;
  for_each (fun '(eid, edge) =>
    match EDGE_REGEX_match eid with
    | None => raise (EdgeNotConforming eid)
    | Some m =>
        let left_nid := group1 m in
        let right_nid := group3 m in
        for_each (fun nid =>
          if contains nodes nid then ret tt
          else raise (EdgeUnknownNode eid nid)) [left_nid; right_nid] ;;
        node1 <- subscript nodes left_nid ;;
        node2 <- subscript nodes right_nid ;;
        direction <- subscript DIRECTION_NAME_TABLE (group2 m) ;;
        create_edge node1 node2 edge direction
    end) edges.

(** ** [main], from [sess.begin_transaction()] on

    The calls made on the transaction object are recorded in order.  Of
    the driver the model assumes what the program does: [tx.rollback()]
    returns, and [tx.commit()] may raise, which nothing catches.  The
    progress lines of [tqdm] are not part of the model; what is kept of the
    error stream is the message [main] prints before it exits.  This is
    [main] over items, the instances whose label is a string and whose
    properties are a dictionary; [raw_main] further down is [main] over
    the instances whatever they hold, and agrees with it on items. *)

Inductive tx_call : Type :=
| Run (s : Stmt)
| Rollback
| Commit.

Inductive exit_status : Type :=
| Exit0
| Exit1 (stderr : string)
| Uncaught (ex : exn).

Record Outcome : Type := mkOutcome {
  calls : list tx_call;
  status : exit_status
}.

Variable commit_store : list Stmt -> option string.

(** The body of the [try] block. *)
Definition try_block (clear : bool) (nodes : dict (Neo4jItem Node))
  (edges : dict (Neo4jItem Edge)) : Tx unit :=
  (if clear then
     tx_run (mkStmt "MATCH (a)-[e]-(b) DELETE e;" []) ;;
     tx_run (mkStmt "MATCH (n) DELETE n;" [])
   else ret tt) ;;
  upload_graph nodes edges.

Definition main (clear : bool) (nodes : dict (Neo4jItem Node))
  (edges : dict (Neo4jItem Edge)) : Outcome :=
  match try_block clear nodes edges [] with
  | (Raise ex, log) =>
      (* except Exception as ex: tx.rollback(); print(ex); sys.exit(1) *)
      mkOutcome (map Run log ++ [Rollback])%list (Exit1 (exn_str ex))
  | (Ok _, log) =>
      (* tx.commit() *)
      mkOutcome (map Run log ++ [Commit])%list
        match commit_store log with
        | None => Exit0
        | Some msg => Uncaught (StoreError msg)
        end
  end.

End Upload.

(** ** [main], before the transaction: the description

    [json.load] hands [main] a value, and two comprehensions turn its
    ["nodes"] and ["edges"] objects into dictionaries of dataclass
    instances, [Node] and [Edge] called with the entry of each identifier as
    keyword arguments.  Nothing
    catches the exceptions raised here.  The dataclass does not look at
    what it stores, so an instance holds the label and the properties as
    values; the functions above are about the instances whose label is a
    string and whose properties are an object. *)

Inductive load_exn : Type :=
| AttributeError
| TypeError.

Inductive loaded (A : Type) : Type :=
| Loaded (a : A)
| LoadError (ex : load_exn).

Arguments Loaded {A} _.
Arguments LoadError {A} _.

Record RawItem : Type := mkRaw {
  raw_label : value;
  raw_properties : value
}.

(** [model.get(key, {})]: only an object has the method. *)
Definition get_section (model : value) (key : string) : loaded value :=
  match model with
  | VDict d =>
      Loaded match get d key with Some v => v | None => VDict [] end
  | _ => LoadError AttributeError
  end.

(** [v.items()] *)
Definition items (v : value) : loaded (list (string * value)) :=
  match v with
  | VDict d => Loaded d
  | _ => LoadError AttributeError
  end.

(** The call of [Node] or [Edge] with the entry as keyword arguments,
    through the generated [__init__(self, label, properties=<a new dict>)]:
    the entry must be a mapping, every key must name a parameter, and
    [label] has no default. *)
Definition init_item (data : value) : loaded RawItem :=
  match data with
  | VDict kw =>
      if forallb (fun k => String.eqb k "label" || String.eqb k "properties")
                 (keys kw)
      then
        match get kw "label" with
        | Some l =>
            Loaded (mkRaw l match get kw "properties" with
                            | Some p => p
                            | None => VDict []
                            end)
        | None => LoadError TypeError
        end
      else LoadError TypeError
  | _ => LoadError TypeError
  end.

(** The comprehension: the entries are taken in order, each instance is
    stored under its identifier, and the first exception ends it. *)
Fixpoint init_items (acc : dict RawItem) (entries : list (string * value))
  : loaded (dict RawItem) :=
  match entries with
  | [] => Loaded acc
  | (id, data) :: entries' =>
      match init_item data with
      | Loaded item => init_items (set acc id item) entries'
      | LoadError ex => LoadError ex
      end
  end.

Definition load_section (model : value) (key : string)
  : loaded (dict RawItem) :=
  match get_section model key with
  | Loaded section =>
      match items section with
      | Loaded entries => init_items [] entries
      | LoadError ex => LoadError ex
      end
  | LoadError ex => LoadError ex
  end.

(** The nodes are built before the edges are looked at. *)
Definition load_description (model : value)
  : loaded (dict RawItem * dict RawItem) :=
  match load_section model "nodes" with
  | Loaded nodes =>
      match load_section model "edges" with
      | Loaded edges => Loaded (nodes, edges)
      | LoadError ex => LoadError ex
      end
  | LoadError ex => LoadError ex
  end.

(** The instance as the functions above take it. *)
Definition typed_item (c : Neo4jClass) (item : RawItem)
  : option (Neo4jItem c) :=
  match raw_label item, raw_properties item with
  | VStr l, VDict props => Some (mkItem l props)
  | _, _ => None
  end.

(** ** The upload over the instances as [main] builds them

    [main] hands [upload_graph] the instances the comprehensions built.
    [query_str] starts with [self.properties.items()], which raises
    [AttributeError] unless the properties are a dictionary, and formats
    the label into the text whatever it is; from there on it is the
    function [query_str] above over the formatted label and the entries of
    the dictionary.  The formatting of a value, the built-in [str], is a
    parameter; on a string it is the string. *)

Definition lift {A : Type} (r : result A) : Tx A := fun log => (r, log).

Section RawUpload.
Variable py_str : value -> string.

(** The instance as [query_str] reads it, or the exception of [items]. *)
Definition as_item (c : Neo4jClass) (self : RawItem) : result (Neo4jItem c) :=
  match raw_properties self with
  | VDict props => Ok (mkItem (py_str (raw_label self)) props)
  | other => Raise (NoItemsAttribute other)
  end.

(** [self.query_str(identifier)] on an instance *)
Definition raw_query_str (c : Neo4jClass) (self : RawItem)
  (identifier : string) : result (string * dict value) :=
  match as_item c self with
  | Ok item => Ok (query_str item identifier)
  | Raise ex => Raise ex
  end.

Variable store : Store.

(** [create_node]: [node.query_str()], then [tx.run]. *)
Definition raw_create_node (node : RawItem) : Tx unit :=
  item <- lift (as_item Node node) ;;
  create_node store item.

(** [create_edge]: [query_str] of the left node, of the right node and of
    the edge, in this order, then [tx.run]. *)
Definition raw_create_edge (node1 node2 edge : RawItem)
  (direction : Direction.t) : Tx unit :=
  item1 <- lift (as_item Node node1) ;;
  item2 <- lift (as_item Node node2) ;;
  item <- lift (as_item Edge edge) ;;
  create_edge store item1 item2 item direction.

Definition raw_upload_graph (nodes edges : dict RawItem) : Tx unit :=
  for_each (fun '(nid, node) => raw_create_node node) nodes ;;
  for_each (fun '(eid, edge) =>
    match EDGE_REGEX_match eid with
    | None => raise (EdgeNotConforming eid)
    | Some m =>
        let left_nid := group1 m in
        let right_nid := group3 m in
        for_each (fun nid =>
          if contains nodes nid then ret tt
          else raise (EdgeUnknownNode eid nid)) [left_nid; right_nid] ;;
        node1 <- subscript nodes left_nid ;;
        node2 <- subscript nodes right_nid ;;
        direction <- subscript DIRECTION_NAME_TABLE (group2 m) ;;
        raw_create_edge node1 node2 edge direction
    end) edges.

Variable commit_store : list Stmt -> option string.

Definition raw_try_block (clear : bool) (nodes edges : dict RawItem)
  : Tx unit :=
  (if clear then
     tx_run store (mkStmt "MATCH (a)-[e]-(b) DELETE e;" []) ;;
     tx_run store (mkStmt "MATCH (n) DELETE n;" [])
   else ret tt) ;;
  raw_upload_graph nodes edges.

(** [main] from [sess.begin_transaction()] on, over the instances. *)
Definition raw_main (clear : bool) (nodes edges : dict RawItem) : Outcome :=
  match raw_try_block clear nodes edges [] with
  | (Raise ex, log) =>
      mkOutcome (map Run log ++ [Rollback])%list (Exit1 (exn_str ex))
  | (Ok _, log) =>
      mkOutcome (map Run log ++ [Commit])%list
        match commit_store log with
        | None => Exit0
        | Some msg => Uncaught (StoreError msg)
        end
  end.

End RawUpload.

(** An instance whose label is a string and whose properties are a
    dictionary, which is what the functions of the first part take. *)
Definition raw_of {c : Neo4jClass} (item : Neo4jItem c) : RawItem :=
  mkRaw (VStr (label item)) (VDict (properties item)).

Definition raw_items {c : Neo4jClass} (items : dict (Neo4jItem c))
  : dict RawItem :=
  map (fun kv => (fst kv, raw_of (snd kv))) items.

(** * Notions used to state the properties *)

Module Str.
(** Every character of the string satisfies [p]. *)
Fixpoint all (p : ascii -> bool) (s : string) : bool :=
  match s with
  | "" => true
  | String ch s' => p ch && all p s'
  end.

End Str.

(** The items of a dictionary with their keys renamed for a role. *)
Definition rename (identifier : string) (d : dict value) : dict value :=
  map (fun kv => (param_name identifier (fst kv), snd kv)) d.


(** ** The identifier grammar *)

Module Grammar.

(** One or more characters of the class, and nothing else. *)
Definition is_node_id (g : string) : bool :=
  match g with
  | "" => false
  | _ => Str.all NODE_ID_CHAR g
  end.

(** The subject cannot extend a run of class characters. *)
Definition stops (rest : string) : bool :=
  match rest with
  | "" => true
  | String ch _ => negb (NODE_ID_CHAR ch)
  end.

Definition is_arrow (d : string) : bool :=
  String.eqb d "->" || String.eqb d "<-".

(** The statement of the identifier grammar: the whole identifier is a
    node id, an arrow and a node id. *)
Definition edge_id_shape (eid : string) : Prop :=
  exists l d r,
    eid = l ++ d ++ r /\
    is_node_id l = true /\ is_arrow d = true /\ is_node_id r = true.

End Grammar.

(** ** A run as a sequence of steps

    Seen from the transaction an upload is a sequence of steps, each of
    which either hands one statement to [tx.run] or raises before doing
    so.  [plan] lists the steps [main] goes through when nothing fails:
    the clear, one creation per node, one step per edge. *)

Inductive step : Type :=
| Issue (s : Stmt)
| Fail (ex : exn).

Definition clear_stmts (clear : bool) : list Stmt :=
  if clear then
    [mkStmt "MATCH (a)-[e]-(b) DELETE e;" []; mkStmt "MATCH (n) DELETE n;" []]
  else [].

(** What one turn of the edge loop does. *)
Definition edge_step (nodes : dict (Neo4jItem Node))
  (item : string * Neo4jItem Edge) : step :=
  let '(eid, edge) := item in
  match EDGE_REGEX_match eid with
  | None => Fail (EdgeNotConforming eid)
  | Some m =>
      match get nodes (group1 m), get nodes (group3 m) with
      | None, _ => Fail (EdgeUnknownNode eid (group1 m))
      | Some _, None => Fail (EdgeUnknownNode eid (group3 m))
      | Some node1, Some node2 =>
          match get DIRECTION_NAME_TABLE (group2 m) with
          | Some direction =>
              Issue (create_edge_stmt node1 node2 edge direction)
          | None => Fail (KeyError (group2 m))
          end
      end
  end.

Definition node_steps (nodes : dict (Neo4jItem Node)) : list step :=
  map (fun item => Issue (create_node_stmt (snd item))) nodes.

Definition plan (clear : bool) (nodes : dict (Neo4jItem Node))
  (edges : dict (Neo4jItem Edge)) : list step :=
  (map Issue (clear_stmts clear) ++ node_steps nodes
     ++ map (edge_step nodes) edges)%list.

(** The statements of the steps that reach [tx.run]. *)
Fixpoint issued (steps : list step) : list Stmt :=
  match steps with
  | [] => []
  | Issue s :: steps' => s :: issued steps'
  | Fail _ :: steps' => issued steps'
  end.

Section Steps.
Variable store : Store.

Definition run_step (st : step) : Tx unit :=
  match st with
  | Issue s => tx_run store s
  | Fail ex => raise ex
  end.

Definition run_steps (steps : list step) : Tx unit := for_each run_step steps.

(** The exception a step ends with after the statements [log], if any. *)
Definition step_error (log : list Stmt) (st : step) : option exn :=
  match st with
  | Issue s => option_map StoreError (store log s)
  | Fail ex => Some ex
  end.

(** Every step of the list succeeds when run in turn after [log]. *)
Fixpoint all_succeed (log : list Stmt) (steps : list step) : Prop :=
  match steps with
  | [] => True
  | st :: steps' =>
      step_error log st = None /\
      all_succeed (log ++ issued [st])%list steps'
  end.

End Steps.

(** ** Statements by their text *)

Inductive kind : Type :=
| ClearRelationships
| ClearNodes
| NodeCreate
| EdgeCreate.

Definition kind_of (s : Stmt) : option kind :=
  let q := stmt_query s in
  if String.eqb q "MATCH (a)-[e]-(b) DELETE e;" then Some ClearRelationships
  else if String.eqb q "MATCH (n) DELETE n;" then Some ClearNodes
  else if String.prefix "CREATE " q then Some NodeCreate
  else if String.prefix (newline ++ "        MATCH ") q then Some EdgeCreate
  else None.

(** The order of a complete run over [n] nodes and [m] edges. *)
Definition schedule (clear : bool) (n m : nat) : list kind :=
  ((if clear then [ClearRelationships; ClearNodes] else [])
     ++ repeat NodeCreate n ++ repeat EdgeCreate m)%list.

(** ** The transaction as the store sees it

    Statements run in a transaction are pending until [Commit] makes them
    durable; [Rollback] discards the pending ones. *)

Fixpoint committed_from (pending durable : list Stmt) (cs : list tx_call)
  : list Stmt :=
  match cs with
  | [] => durable
  | Run s :: cs' => committed_from (pending ++ [s])%list durable cs'
  | Rollback :: cs' => committed_from [] durable cs'
  | Commit :: cs' => committed_from [] (durable ++ pending)%list cs'
  end.

Definition committed (cs : list tx_call) : list Stmt := committed_from [] [] cs.

Definition is_commit (c : tx_call) : bool :=
  match c with Commit => true | _ => false end.

Definition is_rollback (c : tx_call) : bool :=
  match c with Rollback => true | _ => false end.

(** How many times [tx.commit()] and [tx.rollback()] were called. *)
Definition commits (cs : list tx_call) : nat := length (filter is_commit cs).
Definition rollbacks (cs : list tx_call) : nat :=
  length (filter is_rollback cs).

(** ** The identifier grammar as one function

    [upload_graph] matches the identifier, reads the endpoints off groups
    1 and 3 and the direction off group 2. *)

Definition parse_edge_id (eid : string)
  : option (string * Direction.t * string) :=
  match EDGE_REGEX_match eid with
  | Some m =>
      match get DIRECTION_NAME_TABLE (group2 m) with
      | Some direction => Some (group1 m, direction, group3 m)
      | None => None
      end
  | None => None
  end.

(** The endpoint the loop [for nid in (left_nid, right_nid)] stops at. *)
Definition missing_endpoint (nodes : dict (Neo4jItem Node)) (m : Match)
  : option string :=
  if contains nodes (group1 m) then
    if contains nodes (group3 m) then None else Some (group3 m)
  else Some (group1 m).

(** ** Patterns of the query language

    The pattern of an item with the given label and property keys under a
    role identifier, and the path between the roles [n1] and [n2] through
    an edge pattern: RIGHT points from [n1] to [n2], LEFT from [n2] to
    [n1], and a path without arrow head has no direction. *)

Definition item_pattern (c : Neo4jClass) (label : string)
  (property_keys : list string) (identifier : string) : string :=
  OPENING c ++ identifier ++ ": " ++ label ++ " {"
    ++ String.concat ", " (map (placeholder identifier) property_keys)
    ++ "}" ++ CLOSING c.

Definition directed_path (direction : Direction.t) (edge_pattern : string)
  : string :=
  match direction with
  | Direction.RIGHT => "(n1)-" ++ edge_pattern ++ "->(n2)"
  | Direction.LEFT => "(n1)<-" ++ edge_pattern ++ "-(n2)"
  end.

Definition undirected_path (edge_pattern : string) : string :=
  "(n1)-" ++ edge_pattern ++ "-(n2)".

(** A label that could be spliced into label position as it is: a
    non-empty run of letters, digits and underscores. *)
Definition label_char (ch : ascii) : bool :=
  let n := nat_of_ascii ch in
  (((97 <=? n) && (n <=? 122)) || ((65 <=? n) && (n <=? 90))
   || ((48 <=? n) && (n <=? 57)) || (n =? 95))%nat.

Definition safe_label (l : string) : bool :=
  match l with
  | "" => false
  | _ => Str.all label_char l
  end.

(** A step of the plan and the kind scheduled at its position. *)
Definition step_has_kind (st : step) (k : kind) : Prop :=
  forall s, st = Issue s -> kind_of s = Some k.

(** The position of a kind of statement in a run. *)
Definition kind_rank (k : kind) : nat :=
  match k with
  | ClearRelationships => 0
  | ClearNodes => 1
  | NodeCreate => 2
  | EdgeCreate => 3
  end.

Definition kind_le (a b : kind) : Prop := kind_rank a <= kind_rank b.

(** ** A store for the examples: it accepts every statement and the commit *)

Definition accepting : Store := fun _ _ => None.
Definition commit_accepted : list Stmt -> option string := fun _ => None.

Definition person (name : string) : Neo4jItem Node :=
  mkItem "Person" [("name", VStr name)].

Definition knows : Neo4jItem Edge := mkItem "KNOWS" [].

(** ** What a description must look like to be loaded *)

(** An entry that the dataclass constructor accepts. *)
Definition accepted_item (data : value) : bool :=
  match data with
  | VDict kw =>
      forallb (fun k => String.eqb k "label" || String.eqb k "properties")
              (keys kw)
      && contains kw "label"
  | _ => false
  end.

(** A section is missing, or an object whose entries are all accepted. *)
Definition accepted_section (d : dict value) (key : string) : bool :=
  match get d key with
  | None => true
  | Some (VDict entries) => forallb (fun e => accepted_item (snd e)) entries
  | Some _ => false
  end.

Definition accepted_description (model : value) : bool :=
  match model with
  | VDict d => accepted_section d "nodes" && accepted_section d "edges"
  | _ => false
  end.

(** The entries of a section, none when it is missing. *)
Definition section_entries (d : dict value) (key : string)
  : list (string * value) :=
  match get d key with
  | Some (VDict entries) => entries
  | _ => []
  end.

(** The characters that only an arrow can hold. *)
Definition is_angle (ch : ascii) : bool :=
  Ascii.eqb ch "<" || Ascii.eqb ch ">".

(** The direction an arrow stands for. *)
Definition arrow_direction (d : string) : Direction.t :=
  if String.eqb d "->" then Direction.RIGHT else Direction.LEFT.

(** ** The steps of a run over the instances *)

Section RawSteps.
Variable py_str : value -> string.

Definition raw_node_step (node : RawItem) : step :=
  match as_item py_str Node node with
  | Ok item => Issue (create_node_stmt item)
  | Raise ex => Fail ex
  end.

(** What one turn of the edge loop does. *)
Definition raw_edge_step (nodes : dict RawItem) (entry : string * RawItem)
  : step :=
  let '(eid, edge) := entry in
  match EDGE_REGEX_match eid with
  | None => Fail (EdgeNotConforming eid)
  | Some m =>
      match get nodes (group1 m), get nodes (group3 m) with
      | None, _ => Fail (EdgeUnknownNode eid (group1 m))
      | Some _, None => Fail (EdgeUnknownNode eid (group3 m))
      | Some node1, Some node2 =>
          match get DIRECTION_NAME_TABLE (group2 m) with
          | None => Fail (KeyError (group2 m))
          | Some direction =>
              match as_item py_str Node node1 with
              | Raise ex => Fail ex
              | Ok item1 =>
                  match as_item py_str Node node2 with
                  | Raise ex => Fail ex
                  | Ok item2 =>
                      match as_item py_str Edge edge with
                      | Raise ex => Fail ex
                      | Ok item =>
                          Issue (create_edge_stmt item1 item2 item direction)
                      end
                  end
              end
          end
      end
  end.

Definition raw_plan (clear : bool) (nodes edges : dict RawItem) : list step :=
  (map Issue (clear_stmts clear)
     ++ map (fun entry => raw_node_step (snd entry)) nodes
     ++ map (raw_edge_step nodes) edges)%list.


End RawSteps.

(** The properties of the instance are a dictionary. *)
Definition has_dict_properties (self : RawItem) : Prop :=
  exists props, raw_properties self = VDict props.


(** The properties kept for the text are the properties not bound to
    [None]: the same keys, and for the pairwise distinct keys of a
    dictionary the same entries in the same order. *)
Definition null_filtered {c : Neo4jClass} (self : Neo4jItem c)
  (kept : dict value) : Prop :=
  (forall k, In k (keys kept) <->
             exists v, In (k, v) (properties self) /\ v <> VNone)
  /\ (wf (properties self) ->
      kept = filter (fun kv => is_not_None (snd kv)) (properties self)).

(** * Properties *)

(** ** Strings *)

Module StrFacts.
Import Str.

Lemma app_assoc (a b c : string) : (a ++ b) ++ c = a ++ b ++ c.
Proof. induction a as [|ch a IH]; simpl; [reflexivity | now rewrite IH]. Qed.

Lemma app_empty_r (a : string) : a ++ "" = a.
Proof. induction a as [|ch a IH]; simpl; [reflexivity | now rewrite IH]. Qed.

Lemma app_inv_head (a b c : string) : a ++ b = a ++ c -> b = c.
Proof.
  induction a as [|ch a IH]; simpl; intros H; [exact H|].
  injection H as H. now apply IH.
Qed.

Lemma length_app (a b : string) :
  String.length (a ++ b) = String.length a + String.length b.
Proof. induction a as [|ch a IH]; simpl; [reflexivity | now rewrite IH]. Qed.

Lemma all_app p (a b : string) : all p (a ++ b) = all p a && all p b.
Proof.
  induction a as [|ch a IH]; simpl; [reflexivity|].
  now rewrite IH, andb_assoc.
Qed.

End StrFacts.

(** ** Dictionaries *)

Module DictFacts.
Section Facts.
Context {V : Type}.
Implicit Types (d : dict V) (k : string) (v : V).

Lemma get_None d k : get d k = None <-> ~ In k (keys d).
Proof.
  induction d as [|[k' v'] d IH]; simpl.
  - tauto.
  - destruct (String.eqb_spec k k') as [->|Hne].
    + split; [discriminate | intros H; exfalso; apply H; now left].
    + rewrite IH. split.
      * intros H [E|E]; [now apply Hne | now apply H].
      * intros H E. apply H. now right.
Qed.

Lemma get_Some_In d k v : get d k = Some v -> In (k, v) d.
Proof.
  induction d as [|[k' v'] d IH]; simpl; [discriminate|].
  destruct (String.eqb_spec k k') as [->|Hne].
  - intros [= ->]. now left.
  - intros H. right. now apply IH.
Qed.

Lemma In_get d k v : wf d -> In (k, v) d -> get d k = Some v.
Proof.
  unfold wf. induction d as [|[k' v'] d IH]; simpl; [tauto|].
  intros Hnd [E|Hin].
  - injection E as -> ->. now rewrite String.eqb_refl.
  - inversion Hnd as [|? ? Hk' Hnd']; subst.
    destruct (String.eqb_spec k k') as [->|Hne].
    + exfalso. apply Hk'. change k' with (fst (k', v)). now apply in_map.
    + now apply IH.
Qed.

Lemma get_app d1 d2 k :
  get (d1 ++ d2)%list k =
  match get d1 k with Some v => Some v | None => get d2 k end.
Proof.
  induction d1 as [|[k' v'] d1 IH]; simpl; [reflexivity|].
  now destruct (String.eqb k k').
Qed.

Lemma contains_In d k : contains d k = true <-> In k (keys d).
Proof.
  unfold contains. destruct (get d k) eqn:E.
  - split; [intros _|reflexivity].
    apply get_Some_In in E. change k with (fst (k, v)). now apply in_map.
  - apply get_None in E. split; [discriminate | tauto].
Qed.

(** Storing under a new key appends; the dictionary is otherwise kept. *)
Lemma set_fresh d k v : ~ In k (keys d) -> set d k v = (d ++ [(k, v)])%list.
Proof.
  induction d as [|[k' v'] d IH]; simpl; intros H; [reflexivity|].
  destruct (String.eqb_spec k k') as [->|Hne].
  - exfalso. apply H. now left.
  - rewrite IH; [reflexivity|]. intros E. apply H. now right.
Qed.

Lemma keys_set d k v :
  keys (set d k v) = if contains d k then keys d else (keys d ++ [k])%list.
Proof.
  unfold contains. induction d as [|[k' v'] d IH]; simpl; [reflexivity|].
  destruct (String.eqb_spec k k') as [->|Hne]; simpl; [reflexivity|].
  rewrite IH. now destruct (get d k).
Qed.

Lemma wf_set d k v : wf d -> wf (set d k v).
Proof.
  unfold wf. intros H. rewrite keys_set.
  destruct (contains d k) eqn:E; [exact H|].
  apply NoDup_app; [exact H | repeat constructor; simpl; tauto |].
  intros x Hx [<-|[]].
  apply contains_In in Hx. congruence.
Qed.

Lemma wf_update d (items : list (string * V)) : wf d -> wf (update d items).
Proof.
  unfold update. revert d.
  induction items as [|[k v] items IH]; simpl; intros d H; [exact H|].
  apply IH. now apply wf_set.
Qed.

Lemma wf_of_items (items : list (string * V)) : wf (of_items items).
Proof. apply wf_update. constructor. Qed.

(** Updating with items whose keys are new and distinct appends them. *)
Lemma update_fresh d (items : list (string * V)) :
  NoDup (keys d ++ keys items) -> update d items = (d ++ items)%list.
Proof.
  unfold update. revert d.
  induction items as [|[k v] items IH]; simpl; intros d H.
  - now rewrite app_nil_r.
  - assert (Hk : ~ In k (keys d)).
    { apply NoDup_remove_2 in H. intros E. apply H. apply in_or_app. now left. }
    rewrite set_fresh by exact Hk.
    rewrite IH.
    + now rewrite <- app_assoc.
    + unfold keys in *. rewrite map_app. simpl. now rewrite <- app_assoc.
Qed.

Lemma of_items_wf (items : list (string * V)) :
  wf items -> of_items items = items.
Proof. intros H. unfold of_items. now rewrite update_fresh. Qed.

Lemma wf_filter d (p : string * V -> bool) : wf d -> wf (filter p d).
Proof.
  unfold wf. induction d as [|kv d IH]; simpl; intros H; [constructor|].
  inversion H as [|? ? Hk Hd]; subst.
  destruct (p kv); simpl; [|now apply IH].
  constructor; [|now apply IH].
  intros E. apply Hk. unfold keys in *.
  apply in_map_iff in E as [x [Hx E]]. apply filter_In in E.
  apply in_map_iff. exists x. tauto.
Qed.

End Facts.
End DictFacts.

(** ** [query_str]: what is emitted and what is bound *)

Module QueryStrFacts.
Import DictFacts.

Lemma app_inj_length (a b a' b' : string) :
  String.length a = String.length a' -> a ++ b = a' ++ b' -> a = a' /\ b = b'.
Proof.
  revert a'. induction a as [|ch a IH]; intros [|ch' a']; simpl;
    try discriminate; intros Hlen H.
  - now split.
  - injection H as -> H. injection Hlen as Hlen.
    destruct (IH _ Hlen H) as [-> ->]. now split.
Qed.

Lemma param_name_inj identifier k k' :
  param_name identifier k = param_name identifier k' -> k = k'.
Proof.
  unfold param_name. intros H.
  apply StrFacts.app_inv_head in H. simpl in H. now injection H.
Qed.

Lemma placeholder_inj identifier k k' :
  placeholder identifier k = placeholder identifier k' -> k = k'.
Proof.
  unfold placeholder. intros H.
  assert (Hlen : String.length k = String.length k').
  { apply (f_equal String.length) in H.
    rewrite !StrFacts.length_app in H. simpl in H. lia. }
  now destruct (app_inj_length _ _ _ _ Hlen H).
Qed.

Lemma keys_rename identifier d :
  keys (rename identifier d) = map (param_name identifier) (keys d).
Proof. unfold keys, rename. now rewrite !map_map. Qed.

Lemma wf_rename identifier d : wf d -> wf (rename identifier d).
Proof.
  unfold wf. rewrite keys_rename. intros H.
  induction H as [|k ks Hk _ IH]; simpl; constructor; [|exact IH].
  intros E. apply in_map_iff in E as [k' [E Hk']].
  apply param_name_inj in E. now subst.
Qed.

Lemma get_rename identifier d k :
  get (rename identifier d) (param_name identifier k) = get d k.
Proof.
  induction d as [|[k' v'] d IH]; simpl; [reflexivity|].
  destruct (String.eqb_spec k k') as [->|Hne].
  - now rewrite String.eqb_refl.
  - destruct (String.eqb_spec (param_name identifier k)
                              (param_name identifier k')) as [E|_].
    + apply param_name_inj in E. contradiction.
    + exact IH.
Qed.

Lemma get_filter (d : dict value) (p : string * value -> bool) k :
  wf d ->
  get (filter p d) k =
  match get d k with
  | Some v => if p (k, v) then Some v else None
  | None => None
  end.
Proof.
  induction d as [|[k' v'] d IH]; simpl; intros Hwf; [reflexivity|].
  inversion Hwf as [|? ? Hk' Hd]; subst.
  destruct (String.eqb_spec k k') as [->|Hne].
  - destruct (p (k', v')) eqn:Hp; simpl.
    + now rewrite String.eqb_refl.
    + apply get_None. intros E. apply Hk'.
      unfold keys in *. apply in_map_iff in E as [x [Hx E]].
      apply filter_In in E. apply in_map_iff. exists x. tauto.
  - destruct (p (k', v')); simpl.
    + destruct (String.eqb_spec k k'); [contradiction|]. now apply IH.
    + now apply IH.
Qed.

Section Item.
Context {c : Neo4jClass}.
Implicit Types (self : Neo4jItem c) (identifier : string).

Lemma wf_live_properties self : wf (live_properties self).
Proof. apply wf_of_items. Qed.

(** On a dictionary the comprehension is the plain filter. *)
Lemma live_properties_filter self :
  wf (properties self) ->
  live_properties self =
  filter (fun kv => is_not_None (snd kv)) (properties self).
Proof. intros H. apply of_items_wf. now apply wf_filter. Qed.

(** The bound parameters are the live properties under renamed keys. *)
Lemma query_str_params self identifier :
  snd (query_str self identifier) = rename identifier (live_properties self).
Proof.
  unfold query_str. simpl. apply of_items_wf.
  apply wf_rename, wf_live_properties.
Qed.

Lemma query_str_text self identifier :
  fst (query_str self identifier) =
  OPENING c ++ identifier ++ ": " ++ label self ++ " {"
    ++ String.concat ", "
         (map (placeholder identifier) (keys (live_properties self)))
    ++ "}" ++ CLOSING c.
Proof.
  unfold query_str. cbn [fst].
  repeat (rewrite StrFacts.app_assoc; cbn [append]). reflexivity.
Qed.

End Item.
End QueryStrFacts.

(** ** The edge identifier pattern: what [EDGE_REGEX.match] accepts *)

Module GrammarFacts.
Import Grammar.

Lemma is_node_id_cons ch g :
  is_node_id (String ch g) = NODE_ID_CHAR ch && Str.all NODE_ID_CHAR g.
Proof. reflexivity. Qed.

Lemma is_node_id_all g : is_node_id g = true -> Str.all NODE_ID_CHAR g = true.
Proof. destruct g; [discriminate | trivial]. Qed.

Section Plus.
Context {R : Type}.
Implicit Types (k : string -> string -> option R).

(** Some split that the continuation accepts makes the repetition succeed. *)
Lemma node_id_plus_some k g r res :
  is_node_id g = true -> k g r = Some res -> node_id_plus k (g ++ r) <> None.
Proof.
  revert k. induction g as [|ch g IH]; intros k Hg Hk; [discriminate|].
  rewrite is_node_id_cons in Hg. apply andb_prop in Hg as [Hch Hall].
  simpl. rewrite Hch.
  destruct g as [|ch' g].
  - simpl. destruct (node_id_plus _ r); congruence.
  - specialize (IH (fun g0 r0 => k (String ch g0) r0) Hall Hk).
    destruct (node_id_plus _ (String ch' g ++ r)); congruence.
Qed.

(** A result comes from a split into a node id and a rest which the
    continuation accepts, and which it accepts for no longer node id. *)
Lemma node_id_plus_sound k subject res :
  node_id_plus k subject = Some res ->
  exists g r,
    subject = g ++ r /\ is_node_id g = true /\ k g r = Some res /\
    forall g' r', is_node_id g' = true -> r = g' ++ r' ->
                  k (g ++ g') r' = None.
Proof.
  revert k. induction subject as [|ch s IH]; intros k; simpl; [discriminate|].
  destruct (NODE_ID_CHAR ch) eqn:Hch; [|discriminate].
  destruct (node_id_plus (fun g r => k (String ch g) r) s) as [res'|] eqn:Hrec.
  - intros [= ->]. destruct (IH _ Hrec) as (g & r & -> & Hg & Hk & Hlong).
    exists (String ch g), r. repeat split.
    + rewrite is_node_id_cons, Hch. now apply is_node_id_all.
    + exact Hk.
    + intros g' r' Hg' ->. now apply (Hlong g' r').
  - intros Hk. exists (String ch ""), s. repeat split.
    + simpl. now rewrite Hch.
    + exact Hk.
    + intros g' r' Hg' ->. simpl.
      destruct (k (String ch g') r') as [x|] eqn:E; [|reflexivity].
      exfalso.
      apply (node_id_plus_some (fun g r => k (String ch g) r) g' r' Hg' E).
      exact Hrec.
Qed.

(** The longest split the continuation accepts is the one returned. *)
Lemma node_id_plus_first k g r res :
  is_node_id g = true -> k g r = Some res ->
  (forall g' r', is_node_id g' = true -> r = g' ++ r' ->
                 k (g ++ g') r' = None) ->
  node_id_plus k (g ++ r) = Some res.
Proof.
  revert k. induction g as [|ch g IH]; intros k Hg Hk Hlong; [discriminate|].
  rewrite is_node_id_cons in Hg. apply andb_prop in Hg as [Hch Hall].
  simpl. rewrite Hch.
  destruct g as [|ch' g].
  - simpl in *.
    destruct (node_id_plus (fun g0 r0 => k (String ch g0) r0) r) eqn:Hrec;
      [|exact Hk].
    apply node_id_plus_sound in Hrec as (g1 & r1 & -> & Hg1 & Hk1 & _).
    rewrite (Hlong g1 r1 Hg1 eq_refl) in Hk1. discriminate.
  - rewrite (IH (fun g0 r0 => k (String ch g0) r0)); trivial.
Qed.

End Plus.

Lemma stops_no_node_id rest g' r' :
  stops rest = true -> is_node_id g' = true -> rest <> g' ++ r'.
Proof.
  intros Hs Hg ->. destruct g' as [|ch g']; [discriminate|].
  rewrite is_node_id_cons in Hg. apply andb_prop in Hg as [Hch _].
  simpl in Hs. now rewrite Hch in Hs.
Qed.

Lemma is_node_id_app g g' :
  is_node_id g = true -> is_node_id g' = true -> is_node_id (g ++ g') = true.
Proof.
  intros Hg Hg'. destruct g as [|ch g]; [discriminate|].
  simpl. rewrite is_node_id_cons in Hg. apply andb_prop in Hg as [-> Hall].
  rewrite StrFacts.all_app, Hall. now apply is_node_id_all.
Qed.

Lemma is_arrow_cases d : is_arrow d = true -> d = "->" \/ d = "<-".
Proof.
  unfold is_arrow. intros H. apply orb_prop in H as [H|H];
    apply String.eqb_eq in H; auto.
Qed.

(** What a match says about the subject: the three groups are a prefix of
    it, and the third group cannot be extended. *)
Lemma EDGE_REGEX_match_sound eid m :
  EDGE_REGEX_match eid = Some m ->
  exists rest,
    eid = group1 m ++ group2 m ++ group3 m ++ rest /\
    is_node_id (group1 m) = true /\ is_arrow (group2 m) = true /\
    is_node_id (group3 m) = true /\ stops rest = true.
Proof.
  unfold EDGE_REGEX_match. intros H.
  apply node_id_plus_sound in H as (g1 & r1 & -> & Hg1 & H & _).
  unfold arrow in H.
  assert (Hd : exists d r2, r1 = d ++ r2 /\ is_arrow d = true /\
            node_id_plus (fun g3 _ => Some (mkMatch g1 d g3)) r2 = Some m).
  { destruct r1 as [|a [|b r2]]; try discriminate.
    destruct (Ascii.eqb a "<" && Ascii.eqb b "-") eqn:E1.
    - apply andb_prop in E1 as [Ea Eb].
      apply Ascii.eqb_eq in Ea, Eb. subst. simpl in H.
      exists "<-", r2. repeat split.
      destruct (node_id_plus _ r2); [exact H | discriminate].
    - destruct (Ascii.eqb a "-" && Ascii.eqb b ">") eqn:E2; [|discriminate].
      apply andb_prop in E2 as [Ea Eb].
      apply Ascii.eqb_eq in Ea, Eb. subst. exists "->", r2. now repeat split. }
  destruct Hd as (d & r2 & -> & Hd & H3).
  apply node_id_plus_sound in H3 as (g3 & rest & -> & Hg3 & [= <-] & Hlong).
  exists rest. simpl. repeat split; trivial.
  destruct rest as [|ch rest]; [reflexivity|]. simpl.
  destruct (NODE_ID_CHAR ch) eqn:Hch; [|reflexivity].
  specialize (Hlong (String ch "") rest). simpl in Hlong.
  rewrite Hch in Hlong. now specialize (Hlong eq_refl eq_refl).
Qed.

(** Conversely a subject that starts with a node id, an arrow and a node
    id that cannot be extended is matched, with exactly these groups. *)
Lemma EDGE_REGEX_match_complete l d r rest :
  is_node_id l = true -> is_arrow d = true -> is_node_id r = true ->
  stops rest = true ->
  EDGE_REGEX_match (l ++ d ++ r ++ rest) = Some (mkMatch l d r).
Proof.
  intros Hl Hd Hr Hrest. unfold EDGE_REGEX_match.
  assert (H3 : node_id_plus (fun g3 _ => Some (mkMatch l d g3)) (r ++ rest)
               = Some (mkMatch l d r)).
  { apply node_id_plus_first; trivial.
    intros g' r' Hg' E. now apply stops_no_node_id in E. }
  apply node_id_plus_first; trivial.
  - apply is_arrow_cases in Hd as [-> | ->]; simpl; now rewrite H3.
  - intros g' r' Hg' E.
    destruct g' as [|a g']; [discriminate|].
    rewrite is_node_id_cons in Hg'. apply andb_prop in Hg' as [Ha Hg'].
    apply is_arrow_cases in Hd as [-> | ->]; simpl in E; injection E as <- E.
    + destruct g' as [|b g'].
      * simpl in E. subst r'.
        destruct r as [|ch r]; [discriminate | reflexivity].
      * simpl in E. injection E as <- _. discriminate.
    + discriminate.
Qed.

Lemma edge_id_shape_match eid :
  edge_id_shape eid ->
  exists m, EDGE_REGEX_match eid = Some m /\
            eid = group1 m ++ group2 m ++ group3 m.
Proof.
  intros (l & d & r & -> & Hl & Hd & Hr).
  exists (mkMatch l d r). split; [|reflexivity].
  rewrite <- (StrFacts.app_empty_r r) at 1.
  now apply EDGE_REGEX_match_complete.
Qed.

(** [DIRECTION_NAME_TABLE[match.group(2)]] never raises. *)
Lemma direction_of_match eid m :
  EDGE_REGEX_match eid = Some m ->
  (group2 m = "->" /\ get DIRECTION_NAME_TABLE (group2 m) = Some Direction.RIGHT)
  \/ (group2 m = "<-" /\ get DIRECTION_NAME_TABLE (group2 m) = Some Direction.LEFT).
Proof.
  intros H. apply EDGE_REGEX_match_sound in H as (_ & _ & _ & Hd & _).
  apply is_arrow_cases in Hd as [-> | ->]; [left | right]; now split.
Qed.

End GrammarFacts.

(** ** Running a list of steps *)

Module RunFacts.
Section Run.
Variable store : Store.

Lemma for_each_map {A : Type} (f : A -> step) (xs : list A) log :
  for_each (fun x => run_step store (f x)) xs log
  = run_steps store (map f xs) log.
Proof.
  unfold run_steps. revert log.
  induction xs as [|x xs IH]; intros log; simpl; [reflexivity|].
  unfold bind. destruct (run_step store (f x) log) as [[[]|ex] log'];
    [apply IH | reflexivity].
Qed.

Lemma for_each_ext {A : Type} (body body' : A -> Tx unit) (xs : list A) :
  (forall x log, body x log = body' x log) ->
  forall log, for_each body xs log = for_each body' xs log.
Proof.
  intros H. induction xs as [|x xs IH]; intros log; simpl; [reflexivity|].
  unfold bind. rewrite H.
  destruct (body' x log) as [[[]|ex] log']; [apply IH | reflexivity].
Qed.

Lemma run_steps_app (a b : list step) log :
  run_steps store (a ++ b) log =
  match run_steps store a log with
  | (Ok _, log') => run_steps store b log'
  | (Raise ex, log') => (Raise ex, log')
  end.
Proof.
  unfold run_steps. revert log.
  induction a as [|st a IH]; intros log; simpl; [reflexivity|].
  unfold bind. destruct (run_step store st log) as [[[]|ex] log'];
    [apply IH | reflexivity].
Qed.

(** One turn of the edge loop is the step computed by [edge_step]. *)
Lemma edge_loop_step nodes eid edge log :
  match EDGE_REGEX_match eid with
  | None => raise (EdgeNotConforming eid)
  | Some m =>
      let left_nid := group1 m in
      let right_nid := group3 m in
      for_each (fun nid =>
        if contains nodes nid then ret tt
        else raise (EdgeUnknownNode eid nid)) [left_nid; right_nid] ;;
      node1 <- subscript nodes left_nid ;;
      node2 <- subscript nodes right_nid ;;
      direction <- subscript DIRECTION_NAME_TABLE (group2 m) ;;
      create_edge store node1 node2 edge direction
  end log
  = run_step store (edge_step nodes (eid, edge)) log.
Proof.
  unfold edge_step. destruct (EDGE_REGEX_match eid) as [m|]; [|reflexivity].
  unfold contains, subscript, create_edge.
  generalize (get DIRECTION_NAME_TABLE (group2 m)). intros direction.
  cbn [for_each]. unfold bind, ret, raise.
  destruct (get nodes (group1 m)) as [node1|]; [|reflexivity].
  destruct (get nodes (group3 m)) as [node2|]; [|reflexivity].
  destruct direction; reflexivity.
Qed.

Lemma upload_graph_steps nodes edges log :
  upload_graph store nodes edges log
  = run_steps store (node_steps nodes ++ map (edge_step nodes) edges) log.
Proof.
  unfold upload_graph, bind. rewrite run_steps_app.
  unfold node_steps. rewrite <- for_each_map.
  rewrite (for_each_ext
             (fun '(nid, node) => create_node store node)
             (fun item => run_step store (Issue (create_node_stmt (snd item)))))
    by (intros [nid node] l; reflexivity).
  destruct (for_each _ nodes log) as [[[]|ex] log']; [|reflexivity].
  rewrite <- for_each_map. apply for_each_ext.
  intros [eid edge] l. apply edge_loop_step.
Qed.

(** The [try] block of [main] runs the plan. *)
Lemma try_block_plan clear nodes edges log :
  try_block store clear nodes edges log
  = run_steps store (plan clear nodes edges) log.
Proof.
  pose proof (upload_graph_steps nodes edges) as Hup.
  unfold run_steps in *. unfold try_block, plan.
  destruct clear; simpl; unfold bind, ret.
  - destruct (tx_run store _ log) as [[[]|ex] log1]; [|reflexivity].
    destruct (tx_run store _ log1) as [[[]|ex] log2]; [|reflexivity].
    apply Hup.
  - apply Hup.
Qed.

(** When every step succeeds the run returns, having issued everything. *)
Lemma run_steps_all_succeed steps log :
  all_succeed store log steps ->
  run_steps store steps log = (Ok tt, (log ++ issued steps)%list).
Proof.
  unfold run_steps. revert log.
  induction steps as [|st steps IH]; intros log; simpl.
  - intros _. now rewrite app_nil_r.
  - intros [Hst Hrest]. unfold bind.
    destruct st as [s|ex]; simpl in *; [|discriminate].
    unfold tx_run. destruct (store log s); [discriminate|].
    rewrite IH by exact Hrest. now rewrite <- app_assoc.
Qed.

(** The first step that fails ends the run with its exception. *)
Lemma run_steps_first_failure pre st post ex log :
  all_succeed store log pre ->
  step_error store (log ++ issued pre) st = Some ex ->
  run_steps store (pre ++ st :: post) log
  = (Raise ex, (log ++ issued pre ++ issued [st])%list).
Proof.
  intros Hpre Hst. rewrite run_steps_app, run_steps_all_succeed by exact Hpre.
  unfold run_steps. simpl. unfold bind.
  destruct st as [s|ex']; simpl in *.
  - unfold tx_run. destruct (store (log ++ issued pre)%list s);
      [|discriminate].
    injection Hst as <-. now rewrite <- app_assoc.
  - injection Hst as <-. now rewrite app_nil_r.
Qed.

(** A run either succeeds at every step or stops at a first failure. *)
Lemma run_steps_cases steps log :
  all_succeed store log steps \/
  exists pre st post ex,
    steps = (pre ++ st :: post)%list /\ all_succeed store log pre /\
    step_error store (log ++ issued pre) st = Some ex.
Proof.
  revert log. induction steps as [|st steps IH]; intros log; [now left|].
  destruct (step_error store log st) as [ex|] eqn:Hst.
  - right. exists [], st, steps, ex. simpl. now rewrite app_nil_r.
  - destruct (IH (log ++ issued [st])%list) as
      [Hall | (pre & st' & post & ex & -> & Hpre & Hst')].
    + left. now split.
    + right. exists (st :: pre), st', post, ex. repeat split; trivial.
      destruct st; simpl in *; [now rewrite <- app_assoc in Hst'|discriminate].
Qed.

Lemma all_succeed_not_failure pre st post ex log :
  all_succeed store log (pre ++ st :: post) ->
  step_error store (log ++ issued pre) st = Some ex -> False.
Proof.
  revert log. induction pre as [|st' pre IH]; intros log; simpl.
  - rewrite app_nil_r. intros [H _] E. congruence.
  - intros [Hst' H] E. apply (IH _ H).
    destruct st'; simpl in *; [now rewrite <- app_assoc | discriminate].
Qed.

(** The statements handed to [tx.run] are those of some first steps of the
    list, none of which raised before reaching [tx.run]. *)
Lemma run_steps_log steps log :
  exists j,
    snd (run_steps store steps log) = (log ++ issued (firstn j steps))%list /\
    length (issued (firstn j steps)) = j.
Proof.
  unfold run_steps. revert log.
  induction steps as [|st steps IH]; intros log.
  - exists 0. simpl. now rewrite app_nil_r.
  - simpl. unfold bind. destruct st as [s|ex]; simpl.
    + unfold tx_run. destruct (store log s).
      * exists 1. simpl. rewrite ?firstn_O. now split.
      * destruct (IH (log ++ [s])%list) as [j [Hj Hlen]].
        exists (S j). simpl.
        destruct (for_each _ steps _) as [[[]|ex] log']; simpl in *;
          rewrite Hj, <- app_assoc; auto.
    + exists 0. simpl. now rewrite app_nil_r.
Qed.

(** Steps that all succeed all reach [tx.run]. *)
Lemma all_succeed_issued steps log :
  all_succeed store log steps -> length (issued steps) = length steps.
Proof.
  revert log. induction steps as [|[s|ex] steps IH]; intros log; simpl.
  - reflexivity.
  - intros [_ H]. f_equal. now apply (IH _ H).
  - intros [H _]. discriminate.
Qed.

End Run.
End RunFacts.

(** ** The statements [create_node] and [create_edge] build *)

Module BuilderFacts.
Import DictFacts QueryStrFacts.

Lemma keys_update_incl {V : Type} (d : dict V) (items : list (string * V)) k :
  In k (keys (update d items)) -> In k (keys d) \/ In k (keys items).
Proof.
  unfold update. revert d.
  induction items as [|[k' v'] items IH]; simpl; intros d H; [now left|].
  apply IH in H as [H|H]; [|now right; right].
  rewrite keys_set in H. destruct (contains d k'); [now left|].
  apply in_app_or in H as [H|[<-|[]]]; [now left | now right; left].
Qed.

(** A key that survives the comprehension is bound to a value other than
    [None] in the properties. *)
Lemma live_key_not_None {c : Neo4jClass} (self : Neo4jItem c) k :
  In k (keys (live_properties self)) ->
  exists v, In (k, v) (properties self) /\ v <> VNone.
Proof.
  unfold live_properties, of_items. intros H.
  apply keys_update_incl in H as [[]|H].
  unfold keys in H. apply in_map_iff in H as [[k' v] [E H]].
  simpl in E. subst k'. apply filter_In in H as [Hin Hv].
  exists v. split; [exact Hin|]. intros ->. discriminate.
Qed.

Lemma item_pattern_query_str {c : Neo4jClass} (self : Neo4jItem c) identifier :
  fst (query_str self identifier)
  = item_pattern c (label self) (keys (live_properties self)) identifier.
Proof. apply query_str_text. Qed.

Lemma create_node_stmt_query node :
  stmt_query (create_node_stmt node)
  = "CREATE " ++ fst (query_str node "n").
Proof. reflexivity. Qed.

Lemma create_node_stmt_params node :
  stmt_params (create_node_stmt node) = snd (query_str node "n").
Proof. reflexivity. Qed.

Lemma create_edge_stmt_query node1 node2 edge direction :
  stmt_query (create_edge_stmt node1 node2 edge direction)
  = newline ++ "        MATCH " ++ fst (query_str node1 "n1")
    ++ newline ++ "        MATCH " ++ fst (query_str node2 "n2")
    ++ newline ++ "        CREATE "
    ++ directed_path direction (fst (query_str edge "n"))
    ++ newline ++ "    ".
Proof.
  unfold create_edge_stmt.
  destruct (query_str node1 "n1") as [q1 p1],
           (query_str node2 "n2") as [q2 p2],
           (query_str edge "n") as [qe pe].
  cbn [fst stmt_query]. unfold newline.
  destruct direction; cbn [Direction.eqb directed_path];
    repeat (rewrite StrFacts.app_assoc; cbn [append]); reflexivity.
Qed.

Lemma create_edge_stmt_params node1 node2 edge direction :
  stmt_params (create_edge_stmt node1 node2 edge direction)
  = update (update (update [] (snd (query_str node1 "n1")))
                   (snd (query_str node2 "n2")))
           (snd (query_str edge "n")).
Proof.
  unfold create_edge_stmt.
  destruct (query_str node1 "n1") as [q1 p1],
           (query_str node2 "n2") as [q2 p2],
           (query_str edge "n") as [qe pe].
  reflexivity.
Qed.

(** Parameter names of different roles never coincide. *)
Lemma param_name_n1_n2 k k' : param_name "n1" k <> param_name "n2" k'.
Proof. discriminate. Qed.

Lemma param_name_n1_n k k' : param_name "n1" k <> param_name "n" k'.
Proof. discriminate. Qed.

Lemma param_name_n2_n k k' : param_name "n2" k <> param_name "n" k'.
Proof. discriminate. Qed.

Lemma keys_query_str {c : Neo4jClass} (self : Neo4jItem c) identifier k :
  In k (keys (snd (query_str self identifier))) ->
  exists k', k = param_name identifier k'.
Proof.
  rewrite query_str_params, keys_rename. intros H.
  apply in_map_iff in H as [k' [<- _]]. now exists k'.
Qed.

Lemma wf_query_str_params {c : Neo4jClass} (self : Neo4jItem c) identifier :
  wf (snd (query_str self identifier)).
Proof.
  rewrite query_str_params. apply wf_rename, wf_live_properties.
Qed.

Lemma NoDup_disjoint_app {A : Type} (a b : list A) :
  NoDup a -> NoDup b -> (forall x, In x a -> ~ In x b) -> NoDup (a ++ b).
Proof.
  intros Ha Hb Hd. induction Ha as [|x a Hx Ha IH]; simpl; [exact Hb|].
  constructor.
  - intros E. apply in_app_or in E as [E|E]; [now apply Hx|].
    apply (Hd x); [now left | exact E].
  - apply IH. intros y Hy. apply Hd. now right.
Qed.

Lemma keys_update_keep {V : Type} (d : dict V) (items : list (string * V)) k :
  In k (keys d) \/ In k (keys items) -> In k (keys (update d items)).
Proof.
  unfold update. revert d.
  induction items as [|[k' v'] items IH]; simpl; intros d H.
  - destruct H as [H|[]]. exact H.
  - apply IH. rewrite keys_set.
    destruct H as [H|[H|H]].
    + left. destruct (contains d k'); [exact H|]. apply in_or_app. now left.
    + subst k'. left. destruct (contains d k) eqn:E.
      * now apply contains_In.
      * apply in_or_app. right. now left.
    + now right.
Qed.

(** What [query_str] keeps of the properties is what is not [None]. *)
Lemma live_properties_null_filtered {c : Neo4jClass} (self : Neo4jItem c) :
  null_filtered self (live_properties self).
Proof.
  split.
  - intros k. split; [apply live_key_not_None|].
    intros (v & Hin & Hv). unfold live_properties, of_items.
    apply keys_update_keep. right.
    change k with (fst (k, v)). apply in_map. apply filter_In.
    split; [exact Hin|]. destruct v; try reflexivity. now contradiction Hv.
  - apply live_properties_filter.
Qed.

End BuilderFacts.

(** * The property serializer *)

Import DictFacts QueryStrFacts BuilderFacts.

(** C2. For every property dictionary and every role identifier,
    [query_str] drops the keys bound to [None] before it emits anything:
    the emitted property list is made of the placeholders of the remaining
    keys, in order, and the bound parameters are named after the same keys
    by the scheme [identifier_key]; a key bound to [None] has no
    placeholder and no parameter, a key bound to another value has both,
    and its parameter carries that value. *)
Theorem query_str_drops_null_properties
  (c : Neo4jClass) (self : Neo4jItem c) (identifier : string) :
  wf (properties self) ->
  let kept :=
    keys (filter (fun kv => is_not_None (snd kv)) (properties self)) in
  let '(text, params) := query_str self identifier in
  text = item_pattern c (label self) kept identifier
  /\ keys params = map (param_name identifier) kept
  /\ (forall k, get (properties self) k = Some VNone ->
        ~ In k kept
        /\ ~ In (placeholder identifier k) (map (placeholder identifier) kept)
        /\ get params (param_name identifier k) = None)
  /\ (forall k v, get (properties self) k = Some v -> v <> VNone ->
        In k kept
        /\ In (placeholder identifier k) (map (placeholder identifier) kept)
        /\ get params (param_name identifier k) = Some v).
Proof.
  intros Hwf kept.
  pose proof (item_pattern_query_str self identifier) as Htext.
  pose proof (query_str_params self identifier) as Hparams.
  destruct (query_str self identifier) as [text params].
  cbn [fst snd] in Htext, Hparams.
  rewrite live_properties_filter in Htext, Hparams by exact Hwf.
  subst text params. fold kept.
  split; [reflexivity|]. split; [apply keys_rename|].
  assert (Hget : forall k,
            get (filter (fun kv => is_not_None (snd kv)) (properties self)) k
            = match get (properties self) k with
              | Some v => if is_not_None v then Some v else None
              | None => None
              end).
  { intros k. now rewrite get_filter by exact Hwf. }
  split.
  - intros k Hk. specialize (Hget k). rewrite Hk in Hget. simpl in Hget.
    assert (Hnot : ~ In k kept) by now apply get_None.
    repeat split; trivial.
    + intros E. apply in_map_iff in E as [k' [E Hk']].
      apply placeholder_inj in E. now subst k'.
    + now rewrite get_rename.
  - intros k v Hk Hv. specialize (Hget k). rewrite Hk in Hget.
    assert (Hlive : is_not_None v = true)
      by (destruct v; try reflexivity; now contradiction Hv).
    rewrite Hlive in Hget.
    assert (Hin : In k kept).
    { apply get_Some_In in Hget. change k with (fst (k, v)).
      now apply in_map. }
    repeat split; trivial.
    + now apply in_map.
    + now rewrite get_rename.
Qed.

(** The item [{name: "a", note: null}] under the role [n1]. *)
Lemma query_str_drops_null_properties_witness :
  query_str (@mkItem Node "Person" [("name", VStr "a"); ("note", VNone)]) "n1"
  = ("(n1: Person {name: $n1_name})", [("n1_name", VStr "a")])
  /\ get (snd (query_str
                 (@mkItem Node "Person" [("name", VStr "a"); ("note", VNone)])
                 "n1")) "n1_note" = None.
Proof.
  assert (Hwf : wf (properties
            (@mkItem Node "Person" [("name", VStr "a"); ("note", VNone)]))).
  { repeat constructor; simpl; intuition discriminate. }
  pose proof (@query_str_drops_null_properties
                Node (@mkItem Node "Person" [("name", VStr "a"); ("note", VNone)])
                "n1" Hwf) as H.
  cbv zeta in H.
  destruct (query_str _ "n1") as [text params] eqn:E in H.
  destruct H as (_ & _ & Hnull & _).
  split; [reflexivity|].
  destruct (Hnull "note" eq_refl) as (_ & _ & Hget).
  injection E as _ <-. exact Hget.
Defined.

(** C3. The pattern that matches a node when an edge is created is the
    pattern the node was created with, up to the role identifier: the same
    label and the same property keys, namely those not bound to [None];
    and the values bound are the same. *)
Theorem match_clause_uses_create_filter (node : Neo4jItem Node) :
  wf (properties node) ->
  let live := filter (fun kv => is_not_None (snd kv)) (properties node) in
  let pattern := item_pattern Node (label node) (keys live) in
  create_node_stmt node = mkStmt ("CREATE " ++ pattern "n") (rename "n" live)
  /\ (forall other edge direction,
        stmt_query (create_edge_stmt node other edge direction)
        = newline ++ "        MATCH " ++ pattern "n1"
          ++ newline ++ "        MATCH " ++ fst (query_str other "n2")
          ++ newline ++ "        CREATE "
          ++ directed_path direction (fst (query_str edge "n"))
          ++ newline ++ "    ")
  /\ (forall other edge direction,
        stmt_query (create_edge_stmt other node edge direction)
        = newline ++ "        MATCH " ++ fst (query_str other "n1")
          ++ newline ++ "        MATCH " ++ pattern "n2"
          ++ newline ++ "        CREATE "
          ++ directed_path direction (fst (query_str edge "n"))
          ++ newline ++ "    ")
  /\ (forall identifier,
        snd (query_str node identifier) = rename identifier live)
  /\ (forall k, In k (keys live) <->
                exists v, get (properties node) k = Some v /\ v <> VNone).
Proof.
  intros Hwf live pattern.
  assert (Hpat : forall identifier,
            fst (query_str node identifier) = pattern identifier).
  { intros identifier. rewrite item_pattern_query_str.
    now rewrite live_properties_filter. }
  assert (Hpar : forall identifier,
            snd (query_str node identifier) = rename identifier live).
  { intros identifier. rewrite query_str_params.
    now rewrite live_properties_filter. }
  split; [|split; [|split; [|split]]].
  - rewrite <- Hpat, <- Hpar. unfold create_node_stmt.
    now destruct (query_str node "n").
  - intros other edge direction. now rewrite create_edge_stmt_query, Hpat.
  - intros other edge direction. now rewrite create_edge_stmt_query, Hpat.
  - exact Hpar.
  - intros k. split.
    + intros H. unfold keys in H. apply in_map_iff in H as [[k' v] [E H]].
      simpl in E. subst k'. apply filter_In in H as [Hin Hv].
      exists v. split; [now apply In_get|]. intros ->. discriminate.
    + intros [v [Hk Hv]]. apply get_Some_In in Hk.
      change k with (fst (k, v)). apply in_map. apply filter_In.
      split; [exact Hk|]. destruct v; try reflexivity. now contradiction Hv.
Qed.

(** A node created with [{name: "a", note: null}] is matched with
    [{name: $n1_name}] alone. *)
Lemma match_clause_uses_create_filter_witness :
  let node := @mkItem Node "Person" [("name", VStr "a"); ("note", VNone)] in
  create_node_stmt node
  = mkStmt "CREATE (n: Person {name: $n_name})" [("n_name", VStr "a")]
  /\ snd (query_str node "n1") = [("n1_name", VStr "a")]
  /\ exists rest,
       stmt_query (create_edge_stmt node node (@mkItem Edge "KNOWS" [])
                     Direction.RIGHT)
       = newline ++ "        MATCH (n1: Person {name: $n1_name})" ++ rest.
Proof.
  intros node.
  assert (Hwf : wf (properties node)).
  { repeat constructor; simpl; intuition discriminate. }
  destruct (match_clause_uses_create_filter node Hwf)
    as (Hcreate & Hleft & _ & Hparams & _).
  split; [exact Hcreate|]. split; [exact (Hparams "n1")|].
  eexists. rewrite Hleft. reflexivity.
Defined.

(** * The query builder *)

(** C6. The statement built for an edge matches the left node under the
    role [n1], matches the right node under the role [n2], and creates
    between [n1] and [n2] a path through the edge's pattern (its label and
    its properties other than [None]); RIGHT points the path from [n1] to
    [n2], LEFT from [n2] to [n1], and the path is never the undirected
    one.  The properties written in each of the three patterns are exactly
    the properties of the item that are not bound to [None]. *)
Theorem create_edge_statement_is_directed
  (node1 node2 : Neo4jItem Node) (edge : Neo4jItem Edge)
  (direction : Direction.t) :
  let edge_pattern :=
    item_pattern Edge (label edge) (keys (live_properties edge)) "n" in
  stmt_query (create_edge_stmt node1 node2 edge direction)
  = newline ++ "        MATCH "
    ++ item_pattern Node (label node1) (keys (live_properties node1)) "n1"
    ++ newline ++ "        MATCH "
    ++ item_pattern Node (label node2) (keys (live_properties node2)) "n2"
    ++ newline ++ "        CREATE " ++ directed_path direction edge_pattern
    ++ newline ++ "    "
  /\ directed_path Direction.RIGHT edge_pattern
     = "(n1)-" ++ edge_pattern ++ "->(n2)"
  /\ directed_path Direction.LEFT edge_pattern
     = "(n1)<-" ++ edge_pattern ++ "-(n2)"
  /\ directed_path direction edge_pattern <> undirected_path edge_pattern
  /\ (forall k, In k (keys (live_properties edge)) ->
        exists v, In (k, v) (properties edge) /\ v <> VNone)
  /\ null_filtered edge (live_properties edge)
  /\ null_filtered node1 (live_properties node1)
  /\ null_filtered node2 (live_properties node2).
Proof.
  intros edge_pattern.
  split; [|split; [|split; [|split; [|split; [|split; [|split]]]]]].
  - rewrite create_edge_stmt_query, !item_pattern_query_str. reflexivity.
  - reflexivity.
  - reflexivity.
  - unfold undirected_path. destruct direction; simpl.
    + discriminate.
    + intros E. injection E as E. apply StrFacts.app_inv_head in E.
      discriminate.
  - intros k. apply live_key_not_None.
  - apply live_properties_null_filtered.
  - apply live_properties_null_filtered.
  - apply live_properties_null_filtered.
Qed.

(** C9, as the program has it.  The label reaches the statement as the
    caller gave it: whatever the label, [query_str] returns the pattern
    with that very text in label position, and neither rejects nor rewrites
    it. *)
Theorem query_str_splices_label_verbatim
  (c : Neo4jClass) (l : string) (props : dict value) (identifier : string) :
  let property_list :=
    String.concat ", "
      (map (placeholder identifier)
           (keys (live_properties (@mkItem c "" props)))) in
  fst (query_str (@mkItem c l props) identifier)
  = OPENING c ++ identifier ++ ": " ++ l ++ " {" ++ property_list
    ++ "}" ++ CLOSING c
  /\ snd (query_str (@mkItem c l props) identifier)
     = snd (query_str (@mkItem c "" props) identifier)
  /\ (forall node_props,
        stmt_query (create_node_stmt (@mkItem Node l node_props))
        = "CREATE (n: " ++ l ++ " {"
          ++ String.concat ", "
               (map (placeholder "n")
                    (keys (live_properties (@mkItem Node "" node_props))))
          ++ "})").
Proof.
  intros property_list. split; [|split].
  - apply (query_str_text (@mkItem c l props)).
  - reflexivity.
  - intros node_props. rewrite create_node_stmt_query.
    rewrite (query_str_text (@mkItem Node l node_props)). reflexivity.
Qed.

(** C9 fails on the program: the empty label is spliced into the pattern,
    so the text in label position is no safe token; and a label carrying
    pattern syntax is spliced as it is. *)
Lemma query_str_empty_label_spliced :
  ~ (exists token,
       safe_label token = true /\
       fst (query_str (@mkItem Node "" []) "n")
       = item_pattern Node token [] "n")
  /\ fst (query_str (@mkItem Node "" []) "n") = "(n:  {})"
  /\ safe_label "X) DETACH DELETE (m" = false
  /\ fst (query_str (@mkItem Node "X) DETACH DELETE (m" []) "n")
     = "(n: X) DETACH DELETE (m {})".
Proof.
  split; [|repeat split; reflexivity].
  intros (token & Hsafe & E).
  unfold item_pattern in E. simpl in E. injection E as E.
  destruct token as [|ch token]; [discriminate|].
  apply (f_equal String.length) in E. simpl in E.
  rewrite StrFacts.length_app in E. simpl in E. lia.
Qed.

(** C10. The parameters bound for the left node under [n1], for the right
    node under [n2] and for the edge under [n] have pairwise disjoint
    names, so the combined mapping is the three mappings one after the
    other and keeps every binding of each; the two nodes may be the same
    one. *)
Theorem combined_params_keep_every_binding
  (node1 node2 : Neo4jItem Node) (edge : Neo4jItem Edge)
  (direction : Direction.t) :
  let p1 := snd (query_str node1 "n1") in
  let p2 := snd (query_str node2 "n2") in
  let pe := snd (query_str edge "n") in
  let combined := stmt_params (create_edge_stmt node1 node2 edge direction) in
  (forall k, In k (keys p1) -> ~ In k (keys p2) /\ ~ In k (keys pe))
  /\ (forall k, In k (keys p2) -> ~ In k (keys pe))
  /\ combined = (p1 ++ p2 ++ pe)%list
  /\ (forall k v, get p1 k = Some v -> get combined k = Some v)
  /\ (forall k v, get p2 k = Some v -> get combined k = Some v)
  /\ (forall k v, get pe k = Some v -> get combined k = Some v)
  /\ (forall k, In k (keys combined) <->
                In k (keys p1) \/ In k (keys p2) \/ In k (keys pe)).
Proof.
  intros p1 p2 pe combined.
  assert (H12 : forall k, In k (keys p1) -> ~ In k (keys p2)).
  { intros k H1 H2. apply keys_query_str in H1 as [k1 ->].
    apply keys_query_str in H2 as [k2 E]. now apply param_name_n1_n2 in E. }
  assert (H1e : forall k, In k (keys p1) -> ~ In k (keys pe)).
  { intros k H1 He. apply keys_query_str in H1 as [k1 ->].
    apply keys_query_str in He as [ke E]. now apply param_name_n1_n in E. }
  assert (H2e : forall k, In k (keys p2) -> ~ In k (keys pe)).
  { intros k H2 He. apply keys_query_str in H2 as [k2 ->].
    apply keys_query_str in He as [ke E]. now apply param_name_n2_n in E. }
  assert (Hcomb : combined = (p1 ++ p2 ++ pe)%list).
  { unfold combined. rewrite create_edge_stmt_params. fold p1 p2 pe.
    rewrite (update_fresh [] p1) by apply wf_query_str_params. simpl.
    rewrite (update_fresh p1 p2)
      by (apply NoDup_disjoint_app; auto; apply wf_query_str_params).
    rewrite update_fresh; [now rewrite <- app_assoc|].
    apply NoDup_disjoint_app.
    - unfold keys. rewrite map_app.
      apply NoDup_disjoint_app; auto; apply wf_query_str_params.
    - apply wf_query_str_params.
    - intros k Hk. unfold keys in Hk. rewrite map_app in Hk.
      apply in_app_or in Hk as [Hk|Hk]; auto. }
  repeat split; auto.
  - intros k v Hk. rewrite Hcomb, get_app, Hk. reflexivity.
  - intros k v Hk. rewrite Hcomb, !get_app, Hk.
    destruct (get p1 k) eqn:E1; [|reflexivity].
    exfalso. apply (H12 k).
    + apply contains_In. unfold contains. now rewrite E1.
    + apply contains_In. unfold contains. now rewrite Hk.
  - intros k v Hk. rewrite Hcomb, !get_app, Hk.
    destruct (get p1 k) eqn:E1.
    + exfalso. apply (H1e k); apply contains_In; unfold contains;
        [now rewrite E1 | now rewrite Hk].
    + destruct (get p2 k) eqn:E2; [|reflexivity].
      exfalso. apply (H2e k); apply contains_In; unfold contains;
        [now rewrite E2 | now rewrite Hk].
  - rewrite Hcomb. unfold keys. rewrite !map_app. intros H.
    apply in_app_or in H as [H|H]; [now left|].
    apply in_app_or in H as [H|H]; [now right; left | now right; right].
  - rewrite Hcomb. unfold keys. rewrite !map_app. intros [H|[H|H]];
      apply in_or_app; [now left | right | right];
      apply in_or_app; [now left | now right].
Qed.

(** * The identifier grammar *)

Import Grammar GrammarFacts.

(** C4 fails on the program.  The pattern is matched at the start of the
    identifier and nothing anchors its end, so an identifier whose
    beginning has the shape is accepted together with whatever follows:
    ["A->B!"] is read as the edge from [A] to [B], ["A->B->C"] as the edge
    from [A] to [B-], and with the nodes [A] and [B] the run for ["A->B!"]
    commits an edge. *)
Theorem edge_id_with_trailing_text_is_accepted :
  EDGE_REGEX_match "A->B!" = Some (mkMatch "A" "->" "B")
  /\ ~ edge_id_shape "A->B!"
  /\ EDGE_REGEX_match "A->B->C" = Some (mkMatch "A" "->" "B-")
  /\ ~ edge_id_shape "A->B->C"
  /\ main accepting commit_accepted false
          [("A", person "A"); ("B", person "B")] [("A->B!", knows)]
     = mkOutcome
         [Run (create_node_stmt (person "A"));
          Run (create_node_stmt (person "B"));
          Run (create_edge_stmt (person "A") (person "B") knows
                 Direction.RIGHT);
          Commit]
         Exit0.
Proof.
  assert (Hno : forall eid m,
            EDGE_REGEX_match eid = Some m ->
            eid <> group1 m ++ group2 m ++ group3 m -> ~ edge_id_shape eid).
  { intros eid m Hm Hne Hshape.
    apply edge_id_shape_match in Hshape as (m' & Hm' & E). congruence. }
  repeat split; try reflexivity.
  - apply (Hno _ (mkMatch "A" "->" "B")); [reflexivity | discriminate].
  - apply (Hno _ (mkMatch "A" "->" "B-")); [reflexivity | discriminate].
Qed.

(** C5. ["A->B"] is the edge from [A] to [B] pointing RIGHT, ["A<-B"] the
    edge between [A] and [B] pointing LEFT, and ["not-an-edge"], which has
    no arrow, is refused with the error that names the identifier and the
    pattern; whenever an identifier is matched, the arrow [->] gives RIGHT
    and the arrow [<-] gives LEFT. *)
Theorem parse_edge_id_examples :
  parse_edge_id "A->B" = Some ("A", Direction.RIGHT, "B")
  /\ parse_edge_id "A<-B" = Some ("A", Direction.LEFT, "B")
  /\ parse_edge_id "not-an-edge" = None
  /\ (forall nodes edge,
        edge_step nodes ("not-an-edge", edge)
        = Fail (EdgeNotConforming "not-an-edge"))
  /\ status (main accepting commit_accepted false
                  [("A", person "A")] [("not-an-edge", knows)])
     = Exit1 ("Edge 'not-an-edge' does not seem to conform to '"
                ++ EDGE_REGEX_pattern ++ "'")
  /\ get DIRECTION_NAME_TABLE "->" = Some Direction.RIGHT
  /\ get DIRECTION_NAME_TABLE "<-" = Some Direction.LEFT
  /\ (forall eid m,
        EDGE_REGEX_match eid = Some m ->
        (group2 m = "->" /\
         parse_edge_id eid = Some (group1 m, Direction.RIGHT, group3 m))
        \/ (group2 m = "<-" /\
            parse_edge_id eid = Some (group1 m, Direction.LEFT, group3 m))).
Proof.
  repeat split; try reflexivity.
  intros eid m Hm. unfold parse_edge_id. rewrite Hm.
  destruct (direction_of_match eid Hm) as [[E ->] | [E ->]]; auto.
Qed.

(** * The upload orchestrator *)

Module MainFacts.
Import RunFacts.

Lemma commits_runs log (last : tx_call) :
  commits (map Run log ++ [last]) = if is_commit last then 1 else 0.
Proof.
  unfold commits. induction log as [|s log IH]; simpl; [|exact IH].
  now destruct (is_commit last).
Qed.

Lemma rollbacks_runs log (last : tx_call) :
  rollbacks (map Run log ++ [last]) = if is_rollback last then 1 else 0.
Proof.
  unfold rollbacks. induction log as [|s log IH]; simpl; [|exact IH].
  now destruct (is_rollback last).
Qed.

Lemma committed_from_runs pending durable log cs :
  committed_from pending durable (map Run log ++ cs)
  = committed_from (pending ++ log) durable cs.
Proof.
  revert pending. induction log as [|s log IH]; intros pending; simpl.
  - now rewrite app_nil_r.
  - rewrite IH. now rewrite <- app_assoc.
Qed.

Lemma committed_rollback log : committed (map Run log ++ [Rollback]) = [].
Proof. unfold committed. now rewrite committed_from_runs. Qed.

Lemma committed_commit log : committed (map Run log ++ [Commit]) = log.
Proof. unfold committed. now rewrite committed_from_runs. Qed.

Section Main.
Variable store : Store.
Variable commit_store : list Stmt -> option string.
Variables (clear : bool) (nodes : dict (Neo4jItem Node))
          (edges : dict (Neo4jItem Edge)).

(** [main] in terms of the plan. *)
Lemma main_runs_plan :
  main store commit_store clear nodes edges =
  match run_steps store (plan clear nodes edges) [] with
  | (Raise ex, log) => mkOutcome (map Run log ++ [Rollback]) (Exit1 (exn_str ex))
  | (Ok _, log) =>
      mkOutcome (map Run log ++ [Commit])
        match commit_store log with
        | None => Exit0
        | Some msg => Uncaught (StoreError msg)
        end
  end.
Proof. unfold main. now rewrite try_block_plan. Qed.

Lemma main_all_succeed :
  all_succeed store [] (plan clear nodes edges) ->
  calls (main store commit_store clear nodes edges)
  = (map Run (issued (plan clear nodes edges)) ++ [Commit])%list.
Proof.
  intros H. rewrite main_runs_plan, run_steps_all_succeed by exact H.
  reflexivity.
Qed.

Lemma main_first_failure pre st post ex :
  plan clear nodes edges = (pre ++ st :: post)%list ->
  all_succeed store [] pre ->
  step_error store (issued pre) st = Some ex ->
  main store commit_store clear nodes edges
  = mkOutcome (map Run (issued pre ++ issued [st]) ++ [Rollback])
              (Exit1 (exn_str ex)).
Proof.
  intros Hplan Hpre Hst.
  rewrite main_runs_plan, Hplan.
  now rewrite (run_steps_first_failure store pre st post (ex:=ex)).
Qed.

(** A run either succeeds at every step and commits, or stops at its
    first failing step and rolls back. *)
Lemma main_cases :
  (all_succeed store [] (plan clear nodes edges) /\
   calls (main store commit_store clear nodes edges)
   = (map Run (issued (plan clear nodes edges)) ++ [Commit])%list)
  \/
  (exists pre st post ex,
     plan clear nodes edges = (pre ++ st :: post)%list /\
     all_succeed store [] pre /\
     step_error store (issued pre) st = Some ex /\
     main store commit_store clear nodes edges
     = mkOutcome (map Run (issued pre ++ issued [st]) ++ [Rollback])
                 (Exit1 (exn_str ex))).
Proof.
  destruct (run_steps_cases store (plan clear nodes edges) [])
    as [Hall | (pre & st & post & ex & Hsteps & Hpre & Hst)].
  - left. split; [exact Hall | now apply main_all_succeed].
  - right. exists pre, st, post, ex. simpl in Hst.
    repeat split; trivial. now apply (main_first_failure pre st post).
Qed.

(** The statements run before the final call are those of some first
    steps of the plan, and of all its steps when the run commits. *)
Lemma main_calls :
  exists j last,
    calls (main store commit_store clear nodes edges)
    = (map Run (issued (firstn j (plan clear nodes edges))) ++ [last])%list /\
    length (issued (firstn j (plan clear nodes edges))) = j /\
    ((last = Commit /\ j = length (plan clear nodes edges)) \/ last = Rollback).
Proof.
  destruct main_cases as [[Hall Hcalls] | (pre & st & post & ex & _ & _ & _ & Hout)].
  - exists (length (plan clear nodes edges)), Commit.
    rewrite firstn_all. repeat split; auto.
    exact (all_succeed_issued store _ _ Hall).
  - destruct (run_steps_log store (plan clear nodes edges) []) as [j [Hj Hlen]].
    exists j, Rollback. repeat split; auto.
    rewrite main_runs_plan in *.
    destruct (run_steps store (plan clear nodes edges) []) as [[[]|ex'] log];
      simpl in *; [|now subst log].
    exfalso. apply (f_equal (fun o => commits (calls o))) in Hout.
    simpl in Hout. rewrite !commits_runs in Hout. discriminate.
Qed.

End Main.

(** *** Kinds of statements along the plan *)

Lemma kind_of_create_node node :
  kind_of (create_node_stmt node) = Some NodeCreate.
Proof.
  unfold kind_of. rewrite BuilderFacts.create_node_stmt_query.
  reflexivity.
Qed.

Lemma kind_of_create_edge node1 node2 edge direction :
  kind_of (create_edge_stmt node1 node2 edge direction) = Some EdgeCreate.
Proof.
  unfold kind_of. rewrite BuilderFacts.create_edge_stmt_query.
  reflexivity.
Qed.

Lemma edge_step_kind nodes item : step_has_kind (edge_step nodes item) EdgeCreate.
Proof.
  intros s. destruct item as [eid edge]. unfold edge_step.
  destruct (EDGE_REGEX_match eid) as [m|]; [|discriminate].
  destruct (get nodes (group1 m)); [|discriminate].
  destruct (get nodes (group3 m)); [|discriminate].
  destruct (get DIRECTION_NAME_TABLE (group2 m)); [|discriminate].
  intros [= <-]. apply kind_of_create_edge.
Qed.

Lemma plan_schedule clear nodes edges :
  Forall2 step_has_kind (plan clear nodes edges)
          (schedule clear (length nodes) (length edges)).
Proof.
  unfold plan, schedule. apply Forall2_app; [|apply Forall2_app].
  - destruct clear; simpl; repeat constructor; intros s [= <-]; reflexivity.
  - unfold node_steps. induction nodes as [|item ns IH]; simpl; constructor.
    + intros s [= <-]. apply kind_of_create_node.
    + exact IH.
  - induction edges as [|item es IH]; simpl; constructor.
    + apply edge_step_kind.
    + exact IH.
Qed.

Lemma length_issued steps : length (issued steps) <= length steps.
Proof.
  induction steps as [|[s|ex] steps IH]; simpl; lia.
Qed.

Lemma issued_kinds steps kinds :
  Forall2 step_has_kind steps kinds ->
  forall j, length (issued (firstn j steps)) = j ->
            map kind_of (issued (firstn j steps)) = map Some (firstn j kinds).
Proof.
  induction 1 as [|st k steps kinds Hk _ IH]; intros j Hj.
  - rewrite firstn_nil. rewrite firstn_nil in Hj. simpl in Hj. now subst j.
  - destruct j as [|j]; [reflexivity|]. simpl in *.
    destruct st as [s|ex]; simpl in *.
    + injection Hj as Hj. rewrite (Hk s eq_refl). f_equal. now apply IH.
    + exfalso. pose proof (length_issued (firstn j steps)) as H1.
      pose proof (firstn_le_length j steps) as H2. lia.
Qed.

Lemma issued_app a b : issued (a ++ b) = (issued a ++ issued b)%list.
Proof.
  induction a as [|[s|ex] a IH]; simpl; [reflexivity | | exact IH].
  now rewrite IH.
Qed.

(** No statement of a step at or after a raising step is issued. *)
Lemma issued_before_raise pre ex post j :
  length (issued (firstn j (pre ++ Fail ex :: post))) = j ->
  firstn j (pre ++ Fail ex :: post) = firstn j pre.
Proof.
  intros Hj. rewrite firstn_app in *.
  destruct (Nat.le_gt_cases j (length pre)) as [Hle|Hgt].
  - replace (j - length pre) with 0 by lia. simpl. now rewrite app_nil_r.
  - exfalso. rewrite issued_app, length_app in Hj.
    rewrite firstn_all2 in Hj by lia.
    remember (j - length pre) as d eqn:Hd. destruct d as [|d]; [lia|].
    simpl in Hj.
    pose proof (length_issued pre) as H1.
    pose proof (length_issued (firstn d post)) as H2.
    pose proof (firstn_le_length d post) as H3. lia.
Qed.

Lemma StronglySorted_app_rel {A : Type} (R : A -> A -> Prop) (a b : list A) :
  StronglySorted R a -> StronglySorted R b ->
  (forall x y, In x a -> In y b -> R x y) ->
  StronglySorted R (a ++ b).
Proof.
  intros Ha Hb Hab. induction Ha as [|x a Ha IH Hx]; simpl; [exact Hb|].
  constructor.
  - apply IH. intros u v Hu Hv. apply Hab; [now right | exact Hv].
  - apply Forall_app. split; [exact Hx|].
    apply Forall_forall. intros y Hy. apply Hab; [now left | exact Hy].
Qed.

Lemma StronglySorted_repeat {A : Type} (R : A -> A -> Prop) (x : A) n :
  R x x -> StronglySorted R (repeat x n).
Proof.
  intros Hx. induction n as [|n IH]; simpl; constructor; [exact IH|].
  apply Forall_forall. intros y Hy. apply repeat_spec in Hy. now subst.
Qed.

Lemma StronglySorted_firstn {A : Type} (R : A -> A -> Prop) (l : list A) j :
  StronglySorted R l -> StronglySorted R (firstn j l).
Proof.
  intros H. revert j. induction H as [|x l Hl IH Hx]; intros j.
  - rewrite firstn_nil. constructor.
  - destruct j as [|j]; simpl; constructor; [apply IH|].
    apply Forall_forall. intros y Hy.
    rewrite Forall_forall in Hx. apply Hx.
    rewrite <- (firstn_skipn j l). apply in_or_app. now left.
Qed.

Lemma schedule_sorted clear n m :
  StronglySorted kind_le (schedule clear n m).
Proof.
  unfold schedule. apply StronglySorted_app_rel; [|apply StronglySorted_app_rel|].
  - destruct clear; repeat constructor.
  - apply StronglySorted_repeat. unfold kind_le. lia.
  - apply StronglySorted_repeat. unfold kind_le. lia.
  - intros x y Hx Hy. apply repeat_spec in Hx, Hy. subst.
    unfold kind_le. simpl. lia.
  - intros x y Hx Hy. unfold kind_le.
    assert (kind_rank x <= 1) by (destruct clear; simpl in Hx; intuition (subst; simpl; lia)).
    assert (2 <= kind_rank y).
    { apply in_app_or in Hy as [Hy|Hy]; apply repeat_spec in Hy; subst; simpl; lia. }
    lia.
Qed.

Lemma edge_step_missing nodes eid edge m nid :
  EDGE_REGEX_match eid = Some m ->
  missing_endpoint nodes m = Some nid ->
  edge_step nodes (eid, edge) = Fail (EdgeUnknownNode eid nid).
Proof.
  unfold edge_step, missing_endpoint, contains. intros -> H.
  destruct (get nodes (group1 m)); [|congruence].
  destruct (get nodes (group3 m)); congruence.
Qed.

End MainFacts.

Import RunFacts MainFacts.

(** C1. Every run ends with exactly one of [tx.commit()] and
    [tx.rollback()].  If every step of the plan succeeds (each statement of
    the clear, of the node creations and of the edge creations is accepted
    by the store, and each edge identifier is parsed and resolved) the run
    issues them all and commits once; this is the only case in which it
    commits.  Otherwise the first step that fails, whichever it is, ends
    the run: the transaction is rolled back, nothing stays committed, and
    the message of that step's exception is reported with exit status 1. *)
Theorem main_commits_or_rolls_back
  (store : Store) (commit_store : list Stmt -> option string)
  (clear : bool) (nodes : dict (Neo4jItem Node))
  (edges : dict (Neo4jItem Edge)) :
  let steps := plan clear nodes edges in
  let out := main store commit_store clear nodes edges in
  (all_succeed store [] steps <-> commits (calls out) = 1)
  /\ commits (calls out) + rollbacks (calls out) = 1
  /\ (all_succeed store [] steps ->
        calls out = (map Run (issued steps) ++ [Commit])%list
        /\ committed (calls out) = issued steps)
  /\ (forall pre st post ex,
        steps = (pre ++ st :: post)%list ->
        all_succeed store [] pre ->
        step_error store (issued pre) st = Some ex ->
        calls out = (map Run (issued pre ++ issued [st]) ++ [Rollback])%list
        /\ status out = Exit1 (exn_str ex)
        /\ commits (calls out) = 0
        /\ committed (calls out) = [])
  /\ (rollbacks (calls out) = 1 <->
        exists pre st post ex,
          steps = (pre ++ st :: post)%list /\ all_succeed store [] pre /\
          step_error store (issued pre) st = Some ex).
Proof.
  intros steps out.
  assert (Hfail : forall pre st post ex,
            steps = (pre ++ st :: post)%list ->
            all_succeed store [] pre ->
            step_error store (issued pre) st = Some ex ->
            calls out = (map Run (issued pre ++ issued [st]) ++ [Rollback])%list
            /\ status out = Exit1 (exn_str ex)
            /\ commits (calls out) = 0
            /\ committed (calls out) = []).
  { intros pre st post ex Hsteps Hpre Hst. unfold out.
    rewrite (main_first_failure store commit_store clear nodes edges
               pre st post Hsteps Hpre Hst). simpl.
    repeat split; [apply commits_runs | apply committed_rollback]. }
  assert (Hexcl : forall pre st post ex,
            steps = (pre ++ st :: post)%list ->
            step_error store (issued pre) st = Some ex ->
            ~ all_succeed store [] steps).
  { intros pre st post ex Hsteps Hst Hall. rewrite Hsteps in Hall.
    exact (all_succeed_not_failure store pre st post [] Hall Hst). }
  pose proof (main_cases store commit_store clear nodes edges) as Hcases.
  change (plan clear nodes edges) with steps in Hcases.
  change (main store commit_store clear nodes edges) with out in Hcases.
  destruct Hcases
    as [[Hall Hcalls] | (pre & st & post & ex & Hsteps & Hpre & Hst & Hout)].
  - split; [|split; [|split; [|split]]].
    + split; [intros _|trivial]. rewrite Hcalls. apply commits_runs.
    + rewrite Hcalls, commits_runs, rollbacks_runs. reflexivity.
    + intros _. split; [exact Hcalls|]. rewrite Hcalls. apply committed_commit.
    + exact Hfail.
    + split.
      * rewrite Hcalls, rollbacks_runs. discriminate.
      * intros (pre & st & post & ex & Hsteps & _ & Hst).
        now destruct (Hexcl _ _ _ _ Hsteps Hst).
  - destruct (Hfail _ _ _ _ Hsteps Hpre Hst) as (Hcalls & _ & Hcommits & _).
    pose proof (Hexcl _ _ _ _ Hsteps Hst) as Hnot.
    split; [|split; [|split; [|split]]].
    + split; [contradiction|]. rewrite Hcommits. discriminate.
    + rewrite Hcommits, Hcalls, rollbacks_runs. reflexivity.
    + contradiction.
    + exact Hfail.
    + split; [intros _|intros _].
      * now exists pre, st, post, ex.
      * rewrite Hcalls. apply rollbacks_runs.
Qed.

(** C8. The statements of a run, classified by their text, come in the
    order of the schedule: the two statements of the clear when it is
    enabled, relationships first, then one creation per node, then one
    statement per edge.  A run that stops early has issued a beginning of
    this sequence and a run that commits has issued all of it, so no node
    is created after an edge statement and nothing is cleared after a
    creation; all of them are calls on the one transaction that the final
    commit or rollback ends. *)
Theorem statements_follow_schedule
  (store : Store) (commit_store : list Stmt -> option string)
  (clear : bool) (nodes : dict (Neo4jItem Node))
  (edges : dict (Neo4jItem Edge)) :
  let order := schedule clear (length nodes) (length edges) in
  let out := main store commit_store clear nodes edges in
  exists log j last,
    calls out = (map Run log ++ [last])%list
    /\ (last = Commit \/ last = Rollback)
    /\ map kind_of log = map Some (firstn j order)
    /\ StronglySorted kind_le (firstn j order)
    /\ (last = Commit -> map kind_of log = map Some order)
    /\ (clear = true -> 2 <= j ->
          exists rest,
            log = (mkStmt "MATCH (a)-[e]-(b) DELETE e;" []
                   :: mkStmt "MATCH (n) DELETE n;" [] :: rest)%list).
Proof.
  intros order out.
  destruct (main_calls store commit_store clear nodes edges)
    as (j & last & Hcalls & Hlen & Hlast).
  pose proof (plan_schedule clear nodes edges) as Hplan. fold order in Hplan.
  pose proof (issued_kinds Hplan Hlen) as Hkinds.
  exists (issued (firstn j (plan clear nodes edges))), j, last.
  split; [exact Hcalls|]. split; [tauto|]. split; [exact Hkinds|].
  split; [apply StronglySorted_firstn, schedule_sorted|]. split.
  - intros ->. destruct Hlast as [[_ ->] | Hlast]; [|discriminate].
    rewrite Hkinds. rewrite (Forall2_length Hplan). now rewrite firstn_all.
  - intros -> Hj. unfold plan.
    destruct j as [|[|j]]; try lia. simpl. eauto.
Qed.

(** C7, as the program has it.  When some edge identifier is matched and
    one of its endpoints is not a key of the nodes, the run fails and is
    rolled back, nothing stays committed, and the statements it has issued
    belong to steps that come before that edge, so none is issued for it.
    The error reported is the one of the first failing step: it is the
    unknown-node error of this edge, naming the first missing endpoint,
    when all the steps before this edge succeed. *)
Theorem dangling_edge_rolls_back
  (store : Store) (commit_store : list Stmt -> option string)
  (clear : bool) (nodes : dict (Neo4jItem Node))
  (before after : dict (Neo4jItem Edge)) (eid : string)
  (edge : Neo4jItem Edge) (m : Match) (nid : string) :
  EDGE_REGEX_match eid = Some m ->
  missing_endpoint nodes m = Some nid ->
  let edges := (before ++ (eid, edge) :: after)%list in
  let earlier :=
    (map Issue (clear_stmts clear) ++ node_steps nodes
       ++ map (edge_step nodes) before)%list in
  let out := main store commit_store clear nodes edges in
  contains nodes nid = false
  /\ (exists j,
        calls out = (map Run (issued (firstn j earlier)) ++ [Rollback])%list)
  /\ commits (calls out) = 0
  /\ rollbacks (calls out) = 1
  /\ committed (calls out) = []
  /\ (exists ex, status out = Exit1 (exn_str ex))
  /\ (all_succeed store [] earlier ->
        calls out = (map Run (issued earlier) ++ [Rollback])%list
        /\ status out = Exit1 (exn_str (EdgeUnknownNode eid nid))).
Proof.
  intros Hm Hmiss edges earlier out.
  assert (Hplan : plan clear nodes edges
                  = (earlier ++ Fail (EdgeUnknownNode eid nid)
                       :: map (edge_step nodes) after)%list).
  { unfold plan, edges, earlier. rewrite map_app. cbn [map].
    rewrite (@edge_step_missing nodes eid edge m nid Hm Hmiss).
    now rewrite <- !app_assoc. }
  assert (Hnot : ~ all_succeed store [] (plan clear nodes edges)).
  { intros Hall. rewrite Hplan in Hall.
    now apply (all_succeed_not_failure store earlier
                 (Fail (EdgeUnknownNode eid nid))
                 (map (edge_step nodes) after) []
                 (ex:=EdgeUnknownNode eid nid) Hall). }
  split.
  { unfold missing_endpoint in Hmiss.
    destruct (contains nodes (group1 m)) eqn:E1.
    - destruct (contains nodes (group3 m)) eqn:E3; [discriminate|].
      now injection Hmiss as <-.
    - now injection Hmiss as <-. }
  destruct (main_cases store commit_store clear nodes edges)
    as [[Hall _] | (pre & st & post & ex & Hsteps & Hpre & Hst & Hout)];
    [contradiction|].
  fold out in Hout.
  destruct (main_calls store commit_store clear nodes edges)
    as (j & last & Hcalls & Hlen & Hlast).
  fold out in Hcalls.
  assert (Hroll : last = Rollback).
  { destruct Hlast as [[-> _] | ->]; [|reflexivity].
    exfalso. apply (f_equal commits) in Hcalls.
    rewrite Hout in Hcalls. simpl in Hcalls.
    rewrite !commits_runs in Hcalls. discriminate. }
  subst last.
  rewrite Hplan in Hcalls, Hlen.
  rewrite (issued_before_raise _ _ _ Hlen) in Hcalls.
  split; [now exists j|].
  split; [rewrite Hcalls; apply commits_runs|].
  split; [rewrite Hcalls; apply rollbacks_runs|].
  split; [rewrite Hcalls; apply committed_rollback|].
  split; [exists ex; now rewrite Hout|].
  intros Hearlier.
  pose proof (main_first_failure store commit_store clear nodes edges
                earlier (Fail (EdgeUnknownNode eid nid))
                (map (edge_step nodes) after)
                (ex:=EdgeUnknownNode eid nid) Hplan Hearlier eq_refl) as Hthis.
  fold out in Hthis. rewrite Hthis. simpl.
  now rewrite app_nil_r.
Qed.

(** The description of the specification: the nodes [A] and [B], the edge
    ["A->Z"], after a clear, on a store that accepts everything. *)
Lemma dangling_edge_rolls_back_witness :
  let out := main accepting commit_accepted true
               [("A", person "A"); ("B", person "B")] [("A->Z", knows)] in
  calls out
  = [Run (mkStmt "MATCH (a)-[e]-(b) DELETE e;" []);
     Run (mkStmt "MATCH (n) DELETE n;" []);
     Run (create_node_stmt (person "A"));
     Run (create_node_stmt (person "B"));
     Rollback]
  /\ status out
     = Exit1 "Edge 'A->Z' uses node 'Z' which cannot be found in the nodes"
  /\ committed (calls out) = [].
Proof.
  intros out.
  destruct (@dangling_edge_rolls_back accepting commit_accepted true
              [("A", person "A"); ("B", person "B")] [] []
              "A->Z" knows (mkMatch "A" "->" "Z") "Z" eq_refl eq_refl)
    as (_ & _ & _ & _ & Hcommitted & _ & Hthis).
  destruct Hthis as [Hcalls Hstatus].
  { simpl. unfold accepting. simpl. tauto. }
  repeat split; assumption.
Defined.

(** C7 fails on the program as stated: with a malformed edge identifier
    before the dangling one the run stops at the malformed identifier, and
    the error reported is not the unknown-node error. *)
Lemma dangling_edge_other_error :
  let nodes := [("A", person "A")] in
  let edges := [("junk", knows); ("A->Z", knows)] in
  (exists m, EDGE_REGEX_match "A->Z" = Some m /\
             contains nodes (group3 m) = false)
  /\ try_block accepting false nodes edges []
     = (Raise (EdgeNotConforming "junk"), [create_node_stmt (person "A")])
  /\ (forall eid nid,
        fst (try_block accepting false nodes edges [])
        <> Raise (EdgeUnknownNode eid nid))
  /\ status (main accepting commit_accepted false nodes edges)
     = Exit1 ("Edge 'junk' does not seem to conform to '"
                ++ EDGE_REGEX_pattern ++ "'").
Proof.
  intros nodes edges. split; [|split; [|split]].
  - exists (mkMatch "A" "->" "Z"). split; reflexivity.
  - reflexivity.
  - intros eid nid. discriminate.
  - reflexivity.
Qed.

(** * Further properties of the identifier grammar *)

Module GrammarMore.
Import Str StrFacts.

Lemma all_angle_free_node_id g :
  is_node_id g = true -> Str.all (fun ch => negb (is_angle ch)) g = true.
Proof.
  intros H. apply is_node_id_all in H.
  induction g as [|ch g IH]; simpl in *; [reflexivity|].
  apply andb_prop in H as [Hch Hg]. rewrite (IH Hg), andb_true_r.
  destruct (is_angle ch) eqn:E; [|reflexivity].
  unfold is_angle in E. apply orb_prop in E as [E|E];
    apply Ascii.eqb_eq in E; subst ch; discriminate.
Qed.

Lemma arrow_has_angle d :
  is_arrow d = true -> Str.all (fun ch => negb (is_angle ch)) d = false.
Proof. intros H. apply is_arrow_cases in H as [-> | ->]; reflexivity. Qed.

Lemma node_id_not_stops g r : is_node_id g = true -> stops (g ++ r) = false.
Proof.
  destruct g as [|ch g]; [discriminate|].
  rewrite is_node_id_cons. intros H. apply andb_prop in H as [H _].
  simpl. now rewrite H.
Qed.

End GrammarMore.

Import GrammarMore.

(** X1. What [EDGE_REGEX.match] accepts, exactly: the identifier starts
    with a node id, an arrow and a node id, and the second node id is
    followed by the end of the identifier or by a character outside the
    class; the groups are these three parts and no others. *)
Theorem EDGE_REGEX_match_iff (eid : string) (m : Match) :
  EDGE_REGEX_match eid = Some m <->
  exists rest,
    eid = group1 m ++ group2 m ++ group3 m ++ rest
    /\ is_node_id (group1 m) = true /\ is_arrow (group2 m) = true
    /\ is_node_id (group3 m) = true /\ stops rest = true.
Proof.
  split.
  - apply EDGE_REGEX_match_sound.
  - intros (rest & -> & H1 & H2 & H3 & Hrest).
    destruct m as [g1 g2 g3]. now apply EDGE_REGEX_match_complete.
Qed.

(** X2. Writing an edge identifier and reading it back: for two node ids
    [l] and [r], the identifier [l->r] is read as the edge from [l] to [r]
    pointing RIGHT and [l<-r] as the edge between them pointing LEFT,
    whatever hyphens, spaces, dots or commas the ids contain. *)
Theorem parse_edge_id_of_written (l r : string) :
  is_node_id l = true -> is_node_id r = true ->
  parse_edge_id (l ++ "->" ++ r) = Some (l, Direction.RIGHT, r)
  /\ parse_edge_id (l ++ "<-" ++ r) = Some (l, Direction.LEFT, r).
Proof.
  intros Hl Hr. unfold parse_edge_id.
  rewrite <- (StrFacts.app_empty_r r) at 1 3.
  rewrite !EDGE_REGEX_match_complete by trivial.
  split; reflexivity.
Qed.

Lemma parse_edge_id_of_written_witness :
  parse_edge_id "Alice Smith->node-2.b" = Some ("Alice Smith", Direction.RIGHT, "node-2.b")
  /\ parse_edge_id "Alice Smith<-node-2.b" = Some ("Alice Smith", Direction.LEFT, "node-2.b").
Proof.
  exact (parse_edge_id_of_written "Alice Smith" "node-2.b" eq_refl eq_refl).
Defined.

(** X3. An identifier that is empty, that starts with a character outside
    the class, or that holds neither [<] nor [>] is never matched, and the
    edge loop raises the error of a non-conforming identifier for it. *)
Theorem EDGE_REGEX_match_refuses (eid : string) :
  stops eid = true \/ Str.all (fun ch => negb (is_angle ch)) eid = true ->
  EDGE_REGEX_match eid = None
  /\ parse_edge_id eid = None
  /\ forall nodes edge,
       edge_step nodes (eid, edge) = Fail (EdgeNotConforming eid).
Proof.
  intros H.
  assert (Hnone : EDGE_REGEX_match eid = None).
  { destruct (EDGE_REGEX_match eid) as [m|] eqn:Hm; [exfalso|reflexivity].
    apply EDGE_REGEX_match_sound in Hm as (rest & E & H1 & H2 & H3 & _).
    destruct H as [H|H].
    - rewrite E, node_id_not_stops in H by exact H1. discriminate.
    - rewrite E, !StrFacts.all_app, (arrow_has_angle _ H2) in H.
      rewrite andb_false_r in H. discriminate. }
  split; [exact Hnone|]. split.
  - unfold parse_edge_id. now rewrite Hnone.
  - intros nodes edge. unfold edge_step. now rewrite Hnone.
Qed.

Lemma EDGE_REGEX_match_refuses_witness :
  EDGE_REGEX_match "relates to" = None /\ EDGE_REGEX_match "<-B" = None.
Proof.
  split.
  - exact (proj1 (EDGE_REGEX_match_refuses "relates to" (or_intror eq_refl))).
  - exact (proj1 (EDGE_REGEX_match_refuses "<-B" (or_introl eq_refl))).
Defined.

(** X4. The endpoints read off an identifier are always node ids: a key
    of the nodes that is empty or holds a character outside the class is
    never the left or the right endpoint of an edge, whatever the edge
    identifier, so no edge step ever looks it up. *)
Theorem endpoints_are_node_ids (nid : string) :
  is_node_id nid = false ->
  forall eid m,
    EDGE_REGEX_match eid = Some m ->
    group1 m <> nid /\ group3 m <> nid
    /\ forall left direction right,
         parse_edge_id eid = Some (left, direction, right) ->
         left <> nid /\ right <> nid.
Proof.
  intros Hnid eid m Hm.
  pose proof (EDGE_REGEX_match_sound _ Hm) as (rest & _ & H1 & _ & H3 & _).
  assert (Hl : group1 m <> nid) by (intros E; congruence).
  assert (Hr : group3 m <> nid) by (intros E; congruence).
  split; [exact Hl|]. split; [exact Hr|].
  intros left direction right Hparse.
  unfold parse_edge_id in Hparse. rewrite Hm in Hparse.
  destruct (get DIRECTION_NAME_TABLE (group2 m)); [|discriminate].
  injection Hparse as <- _ <-. now split.
Qed.

Lemma endpoints_are_node_ids_witness :
  group1 (mkMatch "A" "->" "B") <> "a>b" /\ group3 (mkMatch "A" "->" "B") <> "a>b".
Proof.
  destruct (@endpoints_are_node_ids "a>b" eq_refl "A->B!"
              (mkMatch "A" "->" "B") eq_refl) as (Hl & Hr & _).
  now split.
Defined.

(** * Further properties of the serializer and of the statement builders *)

Module SerializerMore.
Import DictFacts QueryStrFacts BuilderFacts.

Lemma filter_twice {A : Type} (p : A -> bool) (l : list A) :
  filter p (filter p l) = filter p l.
Proof.
  induction l as [|x l IH]; simpl; [reflexivity|].
  destruct (p x) eqn:E; simpl; [now rewrite E, IH | exact IH].
Qed.

Lemma filter_none {A : Type} (p : A -> bool) (l : list A) :
  (forall x, In x l -> p x = false) -> filter p l = [].
Proof.
  induction l as [|x l IH]; simpl; intros H; [reflexivity|].
  rewrite (H x) by now left. apply IH. intros y Hy. apply H. now right.
Qed.

(** An item stored by an update comes from the dictionary or the items. *)
Lemma In_update {V : Type} (d : dict V) (items : list (string * V)) k v :
  In (k, v) (update d items) -> In (k, v) d \/ In (k, v) items.
Proof.
  unfold update. revert d.
  induction items as [|[k' v'] items IH]; simpl; intros d H; [now left|].
  apply IH in H as [H|H]; [|now right; right].
  assert (Hset : forall d0, In (k, v) (set d0 k' v') ->
                            In (k, v) d0 \/ (k', v') = (k, v)).
  { induction d0 as [|[k0 v0] d0 IHd]; simpl.
    - intros [E|[]]; now right.
    - destruct (String.eqb_spec k' k0) as [->|Hne]; simpl.
      + intros [E|E]; [now right | now left; right].
      + intros [E|E]; [now left; left|].
        apply IHd in E as [E|E]; [now left; right | now right]. }
  apply Hset in H as [H|H]; [now left | now right; left].
Qed.

Lemma live_value_not_None {c : Neo4jClass} (self : Neo4jItem c) k v :
  get (live_properties self) k = Some v -> v <> VNone.
Proof.
  intros H. apply get_Some_In in H.
  unfold live_properties, of_items in H.
  apply In_update in H as [[]|H].
  apply filter_In in H as [_ Hv]. intros ->. discriminate.
Qed.

Lemma get_of_key {V : Type} (d : dict V) k :
  In k (keys d) -> exists v, get d k = Some v.
Proof.
  intros H. destruct (get d k) as [v|] eqn:E; [now exists v|].
  apply get_None in E. contradiction.
Qed.

End SerializerMore.

Import SerializerMore.

(** X5. A property bound to [None] and a property that is not there are
    the same to [query_str]: removing the entries bound to [None] from the
    properties changes neither the text nor the parameters, and so neither
    the statement that creates a node. *)
Theorem query_str_ignores_null_entries
  (c : Neo4jClass) (l : string) (props : dict value) (identifier : string) :
  let present := filter (fun kv => is_not_None (snd kv)) props in
  query_str (@mkItem c l present) identifier
  = query_str (@mkItem c l props) identifier
  /\ create_node_stmt (mkItem l present) = create_node_stmt (mkItem l props).
Proof.
  intros present.
  assert (Hlive : forall c', live_properties (@mkItem c' l present)
                             = live_properties (@mkItem c' l props)).
  { intros c'. unfold live_properties, present. simpl.
    now rewrite filter_twice. }
  split.
  - unfold query_str. now rewrite Hlive.
  - unfold create_node_stmt, query_str. now rewrite Hlive.
Qed.

(** X6. An item without properties, or whose properties are all bound to
    [None], is written with an empty property list and binds no
    parameter. *)
Theorem query_str_without_properties
  (c : Neo4jClass) (self : Neo4jItem c) (identifier : string) :
  (forall k v, In (k, v) (properties self) -> v = VNone) ->
  query_str self identifier
  = (OPENING c ++ identifier ++ ": " ++ label self ++ " {}" ++ CLOSING c, []).
Proof.
  intros H.
  assert (Hlive : live_properties self = []).
  { unfold live_properties. rewrite filter_none; [reflexivity|].
    intros [k v] Hin. simpl. now rewrite (H k v Hin). }
  pose proof (query_str_text self identifier) as Htext.
  pose proof (query_str_params self identifier) as Hparams.
  rewrite Hlive in Htext, Hparams.
  destruct (query_str self identifier) as [text params].
  cbn [fst snd rename keys map String.concat] in Htext, Hparams.
  now subst.
Qed.

Lemma query_str_without_properties_witness :
  query_str (@mkItem Edge "KNOWS" [("since", VNone)]) "n"
  = ("[n: KNOWS {}]", []).
Proof.
  apply (@query_str_without_properties Edge
           (@mkItem Edge "KNOWS" [("since", VNone)]) "n").
  intros k v [E|[]]. now injection E as _ <-.
Defined.

(** X7. In what [query_str] returns the placeholders and the parameters
    correspond one to one, whatever the properties: the parameters have
    pairwise distinct names, there are as many as placeholders, each
    placeholder names a bound parameter, and no parameter is bound to
    [None]. *)
Theorem query_str_placeholders_are_bound
  (c : Neo4jClass) (self : Neo4jItem c) (identifier : string) :
  let live := keys (live_properties self) in
  let '(text, params) := query_str self identifier in
  text = item_pattern c (label self) live identifier
  /\ wf params
  /\ keys params = map (param_name identifier) live
  /\ length params = length (map (placeholder identifier) live)
  /\ (forall k, In k live ->
        exists v, get params (param_name identifier k) = Some v /\ v <> VNone)
  /\ (forall name v, get params name = Some v -> v <> VNone).
Proof.
  intros live.
  pose proof (item_pattern_query_str self identifier) as Htext.
  pose proof (query_str_params self identifier) as Hparams.
  pose proof (wf_query_str_params self identifier) as Hwf.
  destruct (query_str self identifier) as [text params].
  cbn [fst snd] in *. subst text params. fold live.
  split; [reflexivity|]. split; [exact Hwf|].
  split; [apply keys_rename|]. split.
  - unfold rename, live, keys. now rewrite !length_map.
  - assert (Hbound : forall k v,
              get (rename identifier (live_properties self))
                  (param_name identifier k) = Some v -> v <> VNone).
    { intros k v H. rewrite get_rename in H.
      now apply (live_value_not_None self k). }
    split.
    + intros k Hk. destruct (get_of_key _ _ Hk) as [v Hv].
      exists v. rewrite get_rename. split; [exact Hv|].
      now apply (live_value_not_None self k).
    + intros name v H.
      assert (Hin : In name (keys (rename identifier (live_properties self)))).
      { apply contains_In. unfold contains. now rewrite H. }
      rewrite keys_rename in Hin. apply in_map_iff in Hin as [k [<- _]].
      now apply (Hbound k).
Qed.

(** X8. The direction can be read off the statement: for the same nodes
    and edge the statement built for LEFT and the statement built for
    RIGHT bind the same parameters and differ in their text. *)
Theorem create_edge_stmt_tells_direction
  (node1 node2 : Neo4jItem Node) (edge : Neo4jItem Edge) :
  stmt_params (create_edge_stmt node1 node2 edge Direction.LEFT)
  = stmt_params (create_edge_stmt node1 node2 edge Direction.RIGHT)
  /\ stmt_query (create_edge_stmt node1 node2 edge Direction.LEFT)
     <> stmt_query (create_edge_stmt node1 node2 edge Direction.RIGHT)
  /\ forall d d',
       create_edge_stmt node1 node2 edge d = create_edge_stmt node1 node2 edge d'
       -> d = d'.
Proof.
  assert (Hne : stmt_query (create_edge_stmt node1 node2 edge Direction.LEFT)
                <> stmt_query (create_edge_stmt node1 node2 edge Direction.RIGHT)).
  { rewrite !create_edge_stmt_query.
    generalize (fst (query_str node1 "n1")) (fst (query_str node2 "n2"))
               (fst (query_str edge "n")).
    intros q1 q2 qe E. unfold newline, directed_path in E.
    cbn [append] in E. repeat (injection E as E).
    apply StrFacts.app_inv_head in E.
    cbn [append] in E. repeat (injection E as E).
    apply StrFacts.app_inv_head in E.
    cbn [append] in E. discriminate. }
  split; [now rewrite !create_edge_stmt_params|]. split; [exact Hne|].
  intros [] [] E; try reflexivity; exfalso; apply Hne; now rewrite E.
Qed.

(** * Further properties of the upload *)

Module UploadMore.
Import DictFacts RunFacts MainFacts.

(** Why an edge step raises. *)
Lemma edge_step_fail nodes eid edge ex :
  edge_step nodes (eid, edge) = Fail ex ->
  (ex = EdgeNotConforming eid /\ EDGE_REGEX_match eid = None)
  \/ (exists m nid,
        ex = EdgeUnknownNode eid nid /\ EDGE_REGEX_match eid = Some m /\
        missing_endpoint nodes m = Some nid /\ contains nodes nid = false).
Proof.
  unfold edge_step, missing_endpoint, contains.
  destruct (EDGE_REGEX_match eid) as [m|] eqn:Hm.
  - intros H. right. exists m.
    destruct (get nodes (group1 m)) as [n1|] eqn:E1.
    + destruct (get nodes (group3 m)) as [n2|] eqn:E3.
      * destruct (direction_of_match eid Hm) as [[_ Hd]|[_ Hd]];
          rewrite Hd in H; discriminate.
      * injection H as <-. exists (group3 m). rewrite E3. auto.
    + injection H as <-. exists (group1 m). rewrite E1. auto.
  - intros [= <-]. now left.
Qed.

(** What an edge step hands to [tx.run]. *)
Lemma edge_step_issue nodes eid edge s :
  edge_step nodes (eid, edge) = Issue s ->
  exists m node1 node2,
    EDGE_REGEX_match eid = Some m /\
    get nodes (group1 m) = Some node1 /\ get nodes (group3 m) = Some node2 /\
    s = create_edge_stmt node1 node2 edge (arrow_direction (group2 m)).
Proof.
  unfold edge_step.
  destruct (EDGE_REGEX_match eid) as [m|] eqn:Hm; [|discriminate].
  destruct (get nodes (group1 m)) as [n1|] eqn:E1; [|discriminate].
  destruct (get nodes (group3 m)) as [n2|] eqn:E3; [|discriminate].
  intros H. exists m, n1, n2. repeat split; trivial.
  destruct (direction_of_match eid Hm) as [[Hg Hd]|[Hg Hd]];
    rewrite Hd in H; injection H as <-; now rewrite Hg.
Qed.

(** An identifier of the shape whose endpoints are keys of the nodes. *)
Lemma edge_step_resolved nodes edge l d r :
  is_node_id l = true -> is_arrow d = true -> is_node_id r = true ->
  contains nodes l = true -> contains nodes r = true ->
  exists node1 node2,
    get nodes l = Some node1 /\ get nodes r = Some node2 /\
    edge_step nodes (l ++ d ++ r, edge)
    = Issue (create_edge_stmt node1 node2 edge (arrow_direction d)).
Proof.
  intros Hl Hd Hr Hcl Hcr. unfold contains in Hcl, Hcr.
  destruct (get nodes l) as [n1|] eqn:E1; [|discriminate].
  destruct (get nodes r) as [n2|] eqn:E2; [|discriminate].
  exists n1, n2. repeat split; trivial.
  unfold edge_step.
  rewrite <- (StrFacts.app_empty_r r) at 1.
  rewrite EDGE_REGEX_match_complete by trivial. simpl.
  rewrite E1, E2.
  apply is_arrow_cases in Hd as [-> | ->]; reflexivity.
Qed.

Section Store.
Variable store : Store.

Lemma all_succeed_In steps log st :
  all_succeed store log steps -> In st steps -> exists s, st = Issue s.
Proof.
  revert log. induction steps as [|st' steps IH]; intros log; simpl; [tauto|].
  intros [Hst Hrest] [<-|Hin].
  - destruct st' as [s|ex]; [now exists s | discriminate].
  - now apply (IH _ Hrest).
Qed.


End Store.

Lemma In_issued steps s : In (Issue s) steps -> In s (issued steps).
Proof.
  induction steps as [|[s'|ex] steps IH]; simpl; [tauto| |].
  - intros [[= ->]|H]; [now left | right; now apply IH].
  - intros [H|H]; [discriminate | now apply IH].
Qed.


Lemma issued_node_steps nodes :
  issued (node_steps nodes) = map (fun item => create_node_stmt (snd item)) nodes.
Proof.
  unfold node_steps. induction nodes as [|item l IH]; simpl;
    [reflexivity | now rewrite IH].
Qed.

Lemma In_plan clear nodes edges st :
  In st (plan clear nodes edges) ->
  (exists s, st = Issue s)
  \/ (exists eid edge, In (eid, edge) edges /\ st = edge_step nodes (eid, edge)).
Proof.
  unfold plan, node_steps. intros H.
  apply in_app_or in H as [H|H]; [|apply in_app_or in H as [H|H]].
  - apply in_map_iff in H as [s [<- _]]. left. now exists s.
  - apply in_map_iff in H as [item [<- _]]. left. eauto.
  - apply in_map_iff in H as [[eid edge] [<- Hin]]. right. eauto.
Qed.

End UploadMore.

Import UploadMore.

(** X11. A run that commits has resolved every edge and committed every
    statement of the description: for each node its creation, and for each
    edge the statement that links the nodes stored under the two endpoints
    of its identifier, in the direction of its arrow. *)
Theorem committed_run_holds_the_description
  (store : Store) (commit_store : list Stmt -> option string)
  (clear : bool) (nodes : dict (Neo4jItem Node))
  (edges : dict (Neo4jItem Edge)) :
  let out := main store commit_store clear nodes edges in
  commits (calls out) = 1 ->
  (forall nid node, In (nid, node) nodes ->
     In (create_node_stmt node) (committed (calls out)))
  /\ (forall eid edge, In (eid, edge) edges ->
        exists m node1 node2,
          EDGE_REGEX_match eid = Some m /\
          get nodes (group1 m) = Some node1 /\
          get nodes (group3 m) = Some node2 /\
          In (create_edge_stmt node1 node2 edge (arrow_direction (group2 m)))
             (committed (calls out))).
Proof.
  intros out Hcommit.
  destruct (MainFacts.main_cases store commit_store clear nodes edges)
    as [[Hall Hcalls] | (pre & st & post & ex & _ & _ & _ & Hout)].
  - fold out in Hcalls.
    assert (Hcommitted : committed (calls out) = issued (plan clear nodes edges)).
    { rewrite Hcalls. apply MainFacts.committed_commit. }
    rewrite Hcommitted. split.
    + intros nid node Hin. apply In_issued. unfold plan, node_steps.
      apply in_or_app. right. apply in_or_app. left.
      apply in_map_iff. exists (nid, node). now split.
    + intros eid edge Hin.
      assert (Hstep : In (edge_step nodes (eid, edge)) (plan clear nodes edges)).
      { unfold plan. apply in_or_app. right. apply in_or_app. right.
        now apply in_map. }
      destruct (all_succeed_In store _ _ _ Hall Hstep) as [s Hs].
      destruct (edge_step_issue _ _ _ Hs) as (m & n1 & n2 & Hm & H1 & H3 & ->).
      exists m, n1, n2. repeat split; trivial.
      apply In_issued. now rewrite <- Hs.
  - exfalso. fold out in Hout. rewrite Hout in Hcommit. simpl in Hcommit.
    rewrite MainFacts.commits_runs in Hcommit. discriminate.
Qed.

Lemma committed_run_holds_the_description_witness :
  In (create_edge_stmt (person "B") (person "A") knows Direction.LEFT)
     (committed
        (calls (main accepting commit_accepted false
                  [("A", person "A"); ("B", person "B")] [("B<-A", knows)]))).
Proof.
  destruct (@committed_run_holds_the_description
              accepting commit_accepted false
              [("A", person "A"); ("B", person "B")] [("B<-A", knows)]
              eq_refl) as [_ Hedges].
  destruct (Hedges "B<-A" knows (or_introl eq_refl))
    as (m & n1 & n2 & Hm & H1 & H3 & Hin).
  injection Hm as <-. injection H1 as <-. injection H3 as <-.
  exact Hin.
Defined.

(** X12. The exit status tells how the run ended.  It is 0 exactly when
    every step succeeded and the commit was accepted.  When every step
    succeeded and the commit raises, the exception of the commit leaves
    [main] uncaught, and no rollback is attempted after it.  When the
    status is 1 a step failed, one rollback was called and nothing is
    committed. *)
Theorem exit_status_of_main
  (store : Store) (commit_store : list Stmt -> option string)
  (clear : bool) (nodes : dict (Neo4jItem Node))
  (edges : dict (Neo4jItem Edge)) :
  let steps := plan clear nodes edges in
  let out := main store commit_store clear nodes edges in
  (status out = Exit0 <->
     all_succeed store [] steps /\ commit_store (issued steps) = None)
  /\ (forall ex,
        status out = Uncaught ex <->
        exists msg, ex = StoreError msg /\ all_succeed store [] steps /\
                    commit_store (issued steps) = Some msg)
  /\ (forall ex, status out = Uncaught ex ->
        commits (calls out) = 1 /\ rollbacks (calls out) = 0)
  /\ (forall text, status out = Exit1 text ->
        ~ all_succeed store [] steps /\
        commits (calls out) = 0 /\ rollbacks (calls out) = 1 /\
        committed (calls out) = []).
Proof.
  intros steps out.
  pose proof (MainFacts.main_runs_plan store commit_store clear nodes edges)
    as Hmain.
  fold out steps in Hmain.
  destruct (RunFacts.run_steps_cases store steps [])
    as [Hall | (pre & st & post & ex & Hsteps & Hpre & Hst)].
  - rewrite (RunFacts.run_steps_all_succeed store steps [] Hall) in Hmain.
    simpl in Hmain. rewrite Hmain. simpl.
    destruct (commit_store (issued steps)) as [msg|] eqn:Hc.
    + split; [|split; [|split]].
      * split; [discriminate | intros [_ H]; discriminate].
      * intros ex0. split.
        -- intros [= <-]. now exists msg.
        -- intros (msg' & -> & _ & [= ->]). reflexivity.
      * intros ex0 _.
        now rewrite MainFacts.commits_runs, MainFacts.rollbacks_runs.
      * discriminate.
    + split; [|split; [|split]].
      * split; [now split | reflexivity].
      * intros ex0. split; [discriminate|].
        intros (msg' & _ & _ & H). discriminate.
      * discriminate.
      * discriminate.
  - simpl in Hst.
    assert (Hnot : ~ all_succeed store [] steps).
    { intros Hall. rewrite Hsteps in Hall.
      exact (RunFacts.all_succeed_not_failure store pre st post [] Hall Hst). }
    rewrite Hsteps,
      (RunFacts.run_steps_first_failure store pre st post (ex:=ex))
      in Hmain by assumption.
    rewrite Hmain. simpl.
    split; [|split; [|split]].
    + split; [discriminate | intros [H _]; contradiction].
    + intros ex0. split; [discriminate|].
      intros (msg & _ & H & _). contradiction.
    + discriminate.
    + intros text _. split; [exact Hnot|].
      rewrite MainFacts.commits_runs, MainFacts.rollbacks_runs.
      repeat split. apply MainFacts.committed_rollback.
Qed.

(** * Loading the description *)

Module LoadFacts.
Import DictFacts.

Lemma init_item_accepted data :
  accepted_item data = true -> exists item, init_item data = Loaded item.
Proof.
  destruct data; try discriminate. simpl. unfold contains.
  intros H. apply andb_prop in H as [-> H].
  destruct (get items0 "label"); [eauto | discriminate].
Qed.

Lemma init_item_refused data :
  accepted_item data = false -> init_item data = LoadError TypeError.
Proof.
  destruct data; try reflexivity. simpl. unfold contains.
  destruct (forallb _ (keys items0)); [|reflexivity].
  destruct (get items0 "label"); [discriminate | reflexivity].
Qed.

Lemma init_item_error data ex : init_item data = LoadError ex -> ex = TypeError.
Proof.
  destruct data; simpl; try (now intros [= <-]).
  destruct (forallb _ (keys items0)); [|now intros [= <-]].
  destruct (get items0 "label"); [discriminate | now intros [= <-]].
Qed.

Lemma init_items_accepted entries acc :
  forallb (fun e => accepted_item (snd e)) entries = true ->
  exists res, init_items acc entries = Loaded res.
Proof.
  revert acc. induction entries as [|[id data] entries IH]; intros acc; simpl.
  - eauto.
  - intros H. apply andb_prop in H as [Hd Hrest].
    destruct (init_item_accepted data Hd) as [item ->]. now apply IH.
Qed.

Lemma init_items_refused entries acc :
  forallb (fun e => accepted_item (snd e)) entries = false ->
  init_items acc entries = LoadError TypeError.
Proof.
  revert acc. induction entries as [|[id data] entries IH]; intros acc; simpl;
    [discriminate|].
  destruct (accepted_item data) eqn:Hd; simpl.
  - intros H. destruct (init_item_accepted data Hd) as [item ->]. now apply IH.
  - intros _. now rewrite init_item_refused.
Qed.

(** With distinct identifiers the comprehension keeps the entries in
    their order, each with the instance built from it. *)
Lemma init_items_content entries acc res :
  NoDup (keys acc ++ keys entries) ->
  init_items acc entries = Loaded res ->
  exists built,
    res = (acc ++ built)%list /\
    Forall2 (fun e b => fst b = fst e /\ init_item (snd e) = Loaded (snd b))
            entries built.
Proof.
  revert acc. induction entries as [|[id data] entries IH]; intros acc Hnd; simpl.
  - intros [= <-]. exists []. now rewrite app_nil_r.
  - destruct (init_item data) as [item|ex] eqn:Hitem; [|discriminate].
    intros H.
    assert (Hid : ~ In id (keys acc)).
    { apply NoDup_remove_2 in Hnd. intros E. apply Hnd.
      apply in_or_app. now left. }
    rewrite set_fresh in H by exact Hid.
    apply IH in H as (built & -> & Hbuilt).
    + exists ((id, item) :: built). split; [now rewrite <- app_assoc|].
      constructor; [now split | exact Hbuilt].
    + unfold keys in *. rewrite map_app. simpl in *.
      now rewrite <- app_assoc.
Qed.

Lemma load_section_spec d key :
  load_section (VDict d) key =
  match get d key with
  | None => Loaded []
  | Some (VDict entries) => init_items [] entries
  | Some _ => LoadError AttributeError
  end.
Proof.
  unfold load_section, get_section.
  destruct (get d key) as [v|]; [|reflexivity].
  destruct v; reflexivity.
Qed.

Lemma load_section_accepted d key :
  accepted_section d key = true ->
  exists res, load_section (VDict d) key = Loaded res.
Proof.
  rewrite load_section_spec. unfold accepted_section.
  destruct (get d key) as [v|]; [|eauto].
  destruct v; try discriminate. apply init_items_accepted.
Qed.

Lemma load_section_refused d key :
  accepted_section d key = false ->
  exists ex, load_section (VDict d) key = LoadError ex /\
    match get d key with
    | Some (VDict _) => ex = TypeError
    | _ => ex = AttributeError
    end.
Proof.
  rewrite load_section_spec. unfold accepted_section.
  destruct (get d key) as [v|]; [|discriminate].
  destruct v;
    try (intros _; exists AttributeError; split; reflexivity).
  intros H. exists TypeError. split; [now apply init_items_refused | reflexivity].
Qed.

End LoadFacts.

Import LoadFacts.

(** X13. Which descriptions are loaded.  The two comprehensions succeed
    exactly when the value read from the file is an object whose ["nodes"]
    and ["edges"] entries, where present, are objects of entries that are
    themselves objects with a ["label"] key and no key other than
    ["label"] and ["properties"].  Otherwise the nodes are judged before
    the edges: a value or section that is not an object raises
    [AttributeError], an entry that is refused raises [TypeError]. *)
Theorem load_description_accepts (model : value) :
  ((exists nodes edges, load_description model = Loaded (nodes, edges))
   <-> accepted_description model = true)
  /\ ((forall d, model <> VDict d) ->
        load_description model = LoadError AttributeError)
  /\ (forall d, model = VDict d ->
        accepted_section d "nodes" = false ->
        load_description model
        = LoadError match get d "nodes" with
                    | Some (VDict _) => TypeError
                    | _ => AttributeError
                    end)
  /\ (forall d, model = VDict d ->
        accepted_section d "nodes" = true ->
        accepted_section d "edges" = false ->
        load_description model
        = LoadError match get d "edges" with
                    | Some (VDict _) => TypeError
                    | _ => AttributeError
                    end).
Proof.
  assert (Hnodes : forall d, accepted_section d "nodes" = false ->
            load_description (VDict d)
            = LoadError match get d "nodes" with
                        | Some (VDict _) => TypeError
                        | _ => AttributeError
                        end).
  { intros d H. unfold load_description.
    destruct (load_section_refused d "nodes" H) as (ex & -> & Hex).
    destruct (get d "nodes") as [[]|]; now subst. }
  assert (Hedges : forall d, accepted_section d "nodes" = true ->
            accepted_section d "edges" = false ->
            load_description (VDict d)
            = LoadError match get d "edges" with
                        | Some (VDict _) => TypeError
                        | _ => AttributeError
                        end).
  { intros d Hn H. unfold load_description.
    destruct (load_section_accepted d "nodes" Hn) as [ns ->].
    destruct (load_section_refused d "edges" H) as (ex & -> & Hex).
    destruct (get d "edges") as [[]|]; now subst. }
  split; [|split; [|split]].
  - destruct model as [| | | | | |d];
      try (split; [intros (n & e & H); discriminate | discriminate]).
    simpl. split.
    + intros (ns & es & H).
      destruct (accepted_section d "nodes") eqn:Hn.
      * destruct (accepted_section d "edges") eqn:He; [reflexivity|].
        rewrite (Hedges d Hn He) in H. discriminate.
      * rewrite (Hnodes d Hn) in H. discriminate.
    + intros H. apply andb_prop in H as [Hn He].
      unfold load_description.
      destruct (load_section_accepted d "nodes" Hn) as [ns ->].
      destruct (load_section_accepted d "edges" He) as [es ->]. eauto.
  - intros H. destruct model; try reflexivity. now destruct (H items0).
  - intros d -> H. now apply Hnodes.
  - intros d -> Hn He. now apply Hedges.
Qed.

(** X14. What is loaded.  When the description is loaded and the
    identifiers of a section are pairwise distinct, as the keys of an
    object read by [json.load] are, the section gives one instance per
    entry, under the same identifier and in the same order; the instance
    holds the entry's label as it is and the entry's properties, or an
    empty object when the entry has none. *)
Theorem load_description_content
  (d : dict value) (nodes edges : dict RawItem) :
  load_description (VDict d) = Loaded (nodes, edges) ->
  wf (section_entries d "nodes") -> wf (section_entries d "edges") ->
  let built (entries : list (string * value)) (items : dict RawItem) :=
    Forall2 (fun e b =>
               fst b = fst e /\
               exists kw l,
                 snd e = VDict kw /\ get kw "label" = Some l /\
                 snd b = mkRaw l match get kw "properties" with
                                 | Some p => p
                                 | None => VDict []
                                 end)
            entries items in
  built (section_entries d "nodes") nodes
  /\ built (section_entries d "edges") edges
  /\ keys nodes = keys (section_entries d "nodes")
  /\ keys edges = keys (section_entries d "edges").
Proof.
  intros Hload Hwn Hwe built.
  assert (Hitem : forall data item,
            init_item data = Loaded item ->
            exists kw l,
              data = VDict kw /\ get kw "label" = Some l /\
              item = mkRaw l match get kw "properties" with
                             | Some p => p
                             | None => VDict []
                             end).
  { intros data item H. destruct data; try discriminate. simpl in H.
    destruct (forallb _ (keys items0)); [|discriminate].
    destruct (get items0 "label") as [l|] eqn:El; [|discriminate].
    injection H as <-. exists items0, l. auto. }
  assert (Hsection : forall key res,
            load_section (VDict d) key = Loaded res ->
            wf (section_entries d key) ->
            built (section_entries d key) res).
  { intros key res H Hwf. rewrite load_section_spec in H.
    unfold section_entries in *.
    unfold built.
    destruct (get d key) as [v|]; [|injection H as <-; constructor].
    destruct v; try discriminate.
    apply init_items_content in H as (items' & -> & Hb); [|exact Hwf].
    simpl. clear Hwf.
    induction Hb as [|e b es bs [Hid Hinit] _ IH]; [constructor|].
    constructor; [|exact IH].
    split; [exact Hid|]. now apply Hitem. }
  assert (Hkeys : forall entries items,
            built entries items -> keys items = keys entries).
  { intros entries items0 H. unfold keys. unfold built in H.
    induction H as [|e b es bs [Hid _] _ IH]; simpl; [reflexivity|].
    now rewrite Hid, IH. }
  unfold load_description in Hload.
  destruct (load_section (VDict d) "nodes") as [ns|] eqn:Hn; [|discriminate].
  destruct (load_section (VDict d) "edges") as [es|] eqn:He; [|discriminate].
  injection Hload as <- <-.
  pose proof (Hsection "nodes" ns Hn Hwn) as Hbn.
  pose proof (Hsection "edges" es He Hwe) as Hbe.
  repeat split; auto.
Qed.

Lemma load_description_content_witness :
  let model :=
    [("nodes", VDict [("A", VDict [("label", VStr "Person")]);
                      ("B", VDict [("label", VStr "Person");
                                   ("properties", VDict [("name", VStr "B")])])])]
  in
  exists nodes,
    load_description (VDict model) = Loaded (nodes, [])
    /\ keys nodes = ["A"; "B"]
    /\ get nodes "A" = Some (mkRaw (VStr "Person") (VDict [])).
Proof.
  intros model. eexists. split; [reflexivity|].
  assert (Hwf : wf (section_entries model "nodes")).
  { repeat constructor; simpl; intuition discriminate. }
  assert (Hwe : wf (section_entries model "edges")) by constructor.
  destruct (@load_description_content model _ _ eq_refl Hwf Hwe)
    as (_ & _ & Hkeys & _).
  split; [exact Hkeys | reflexivity].
Defined.

(** * Edges are examined only after the nodes were sent *)

Module OrderFacts.


Lemma node_steps_issue nodes :
  node_steps nodes = map Issue (map (fun item => create_node_stmt (snd item)) nodes).
Proof. unfold node_steps. now rewrite map_map. Qed.

End OrderFacts.

(** * The upload over the instances *)

Module RawFacts.
Import DictFacts RunFacts MainFacts.

Section Raw.
Variable py_str : value -> string.
Variable store : Store.

(** [create_node] in terms of [query_str] on the instance. *)
Lemma raw_create_node_query_str node log :
  raw_create_node py_str store node log =
  match raw_query_str py_str Node node "n" with
  | Ok (node_query_str, params) =>
      tx_run store (mkStmt ("CREATE " ++ node_query_str) params) log
  | Raise ex => (Raise ex, log)
  end.
Proof.
  unfold raw_create_node, raw_query_str, bind, lift, create_node,
    create_node_stmt.
  destruct (as_item py_str Node node) as [item|ex]; [|reflexivity].
  now destruct (query_str item "n").
Qed.

Lemma raw_create_node_step node log :
  raw_create_node py_str store node log
  = run_step store (raw_node_step py_str node) log.
Proof.
  unfold raw_create_node, raw_node_step, bind, lift.
  now destruct (as_item py_str Node node).
Qed.

Lemma raw_edge_loop_step nodes eid edge log :
  match EDGE_REGEX_match eid with
  | None => raise (EdgeNotConforming eid)
  | Some m =>
      let left_nid := group1 m in
      let right_nid := group3 m in
      for_each (fun nid =>
        if contains nodes nid then ret tt
        else raise (EdgeUnknownNode eid nid)) [left_nid; right_nid] ;;
      node1 <- subscript nodes left_nid ;;
      node2 <- subscript nodes right_nid ;;
      direction <- subscript DIRECTION_NAME_TABLE (group2 m) ;;
      raw_create_edge py_str store node1 node2 edge direction
  end log
  = run_step store (raw_edge_step py_str nodes (eid, edge)) log.
Proof.
  unfold raw_edge_step.
  destruct (EDGE_REGEX_match eid) as [m|]; [|reflexivity].
  unfold contains, subscript, raw_create_edge, create_edge.
  generalize (get DIRECTION_NAME_TABLE (group2 m)). intros direction.
  cbn [for_each]. unfold bind, ret, raise, lift.
  destruct (get nodes (group1 m)) as [node1|]; [|reflexivity].
  destruct (get nodes (group3 m)) as [node2|]; [|reflexivity].
  destruct direction as [d|]; [|reflexivity].
  destruct (as_item py_str Node node1); [|reflexivity].
  destruct (as_item py_str Node node2); [|reflexivity].
  destruct (as_item py_str Edge edge); reflexivity.
Qed.

Lemma raw_upload_graph_steps nodes edges log :
  raw_upload_graph py_str store nodes edges log
  = run_steps store
      (map (fun entry => raw_node_step py_str (snd entry)) nodes
         ++ map (raw_edge_step py_str nodes) edges) log.
Proof.
  unfold raw_upload_graph, bind. rewrite run_steps_app.
  rewrite <- for_each_map.
  rewrite (for_each_ext
             (fun '(nid, node) => raw_create_node py_str store node)
             (fun entry => run_step store (raw_node_step py_str (snd entry))))
    by (intros [nid node] l; apply raw_create_node_step).
  destruct (for_each _ nodes log) as [[[]|ex] log']; [|reflexivity].
  rewrite <- for_each_map. apply for_each_ext.
  intros [eid edge] l. apply raw_edge_loop_step.
Qed.

(** The [try] block over the instances runs the plan over the instances. *)
Lemma raw_try_block_plan clear nodes edges log :
  raw_try_block py_str store clear nodes edges log
  = run_steps store (raw_plan py_str clear nodes edges) log.
Proof.
  pose proof (raw_upload_graph_steps nodes edges) as Hup.
  unfold run_steps in *. unfold raw_try_block, raw_plan.
  destruct clear; simpl; unfold bind, ret.
  - destruct (tx_run store _ log) as [[[]|ex] log1]; [|reflexivity].
    destruct (tx_run store _ log1) as [[[]|ex] log2]; [|reflexivity].
    apply Hup.
  - apply Hup.
Qed.

Variable commit_store : list Stmt -> option string.

Lemma raw_main_runs_plan clear nodes edges :
  raw_main py_str store commit_store clear nodes edges =
  match run_steps store (raw_plan py_str clear nodes edges) [] with
  | (Raise ex, log) => mkOutcome (map Run log ++ [Rollback]) (Exit1 (exn_str ex))
  | (Ok _, log) =>
      mkOutcome (map Run log ++ [Commit])
        match commit_store log with
        | None => Exit0
        | Some msg => Uncaught (StoreError msg)
        end
  end.
Proof. unfold raw_main. now rewrite raw_try_block_plan. Qed.




End Raw.

(** *** Instances with dictionary properties *)

Section Typed.
Variable py_str : value -> string.


Lemma as_item_raise c self ex :
  as_item py_str c self = Raise ex ->
  ex = NoItemsAttribute (raw_properties self) /\ ~ has_dict_properties self.
Proof.
  unfold as_item.
  destruct (raw_properties self) eqn:E; intros H; try discriminate;
    injection H as <-;
    (split; [reflexivity | intros [p Hp]; congruence]).
Qed.



(** Why an edge step over the instances raises. *)
Lemma raw_edge_step_fail nodes eid edge ex :
  raw_edge_step py_str nodes (eid, edge) = Fail ex ->
  (ex = EdgeNotConforming eid /\ EDGE_REGEX_match eid = None)
  \/ (exists m nid,
        ex = EdgeUnknownNode eid nid /\ EDGE_REGEX_match eid = Some m /\
        contains nodes nid = false /\
        (nid = group1 m \/
         nid = group3 m /\ contains nodes (group1 m) = true))
  \/ (exists m nid node,
        EDGE_REGEX_match eid = Some m /\
        (nid = group1 m \/ nid = group3 m) /\ get nodes nid = Some node /\
        ex = NoItemsAttribute (raw_properties node) /\
        ~ has_dict_properties node)
  \/ (ex = NoItemsAttribute (raw_properties edge) /\
      ~ has_dict_properties edge).
Proof.
  unfold raw_edge_step, contains.
  destruct (EDGE_REGEX_match eid) as [m|] eqn:Hm.
  - intros H. right.
    destruct (get nodes (group1 m)) as [n1|] eqn:E1.
    + destruct (get nodes (group3 m)) as [n2|] eqn:E3.
      * right.
        assert (Hd : exists d, get DIRECTION_NAME_TABLE (group2 m) = Some d).
        { destruct (GrammarFacts.direction_of_match eid Hm)
            as [[_ Hd]|[_ Hd]]; eauto. }
        destruct Hd as [d Hd]. rewrite Hd in H.
        destruct (as_item py_str Node n1) as [i1|ex1] eqn:A1.
        2: { injection H as <-. left. apply as_item_raise in A1 as [-> Hn].
             exists m, (group1 m), n1. auto 6. }
        destruct (as_item py_str Node n2) as [i2|ex2] eqn:A2.
        2: { injection H as <-. left. apply as_item_raise in A2 as [-> Hn].
             exists m, (group3 m), n2. auto 6. }
        destruct (as_item py_str Edge edge) as [i|exe] eqn:Ae; [discriminate|].
        injection H as <-. right. now apply as_item_raise in Ae.
      * left. injection H as <-. exists m, (group3 m).
        rewrite E3, E1. repeat split. right. now split.
    + left. injection H as <-. exists m, (group1 m).
      rewrite E1. repeat split. now left.
  - intros [= <-]. now left.
Qed.


(** On instances built from items the plan is the plan of the items. *)
Lemma get_raw_items {c : Neo4jClass} (items : dict (Neo4jItem c)) k :
  get (raw_items items) k = option_map raw_of (get items k).
Proof.
  induction items as [|[k' v] items IH]; simpl; [reflexivity|].
  now destruct (String.eqb k k').
Qed.

Hypothesis py_str_string : forall s, py_str (VStr s) = s.

Lemma as_item_raw_of {c : Neo4jClass} (item : Neo4jItem c) :
  as_item py_str c (raw_of item) = Ok item.
Proof.
  unfold as_item, raw_of. simpl. rewrite py_str_string. now destruct item.
Qed.

Lemma map_raw_items {c : Neo4jClass} {B : Type} (f : string * RawItem -> B)
  (items : dict (Neo4jItem c)) :
  map f (raw_items items) = map (fun kv => f (fst kv, raw_of (snd kv))) items.
Proof. unfold raw_items. now rewrite map_map. Qed.

Lemma raw_plan_items clear nodes edges :
  raw_plan py_str clear (raw_items nodes) (raw_items edges)
  = plan clear nodes edges.
Proof.
  unfold raw_plan, plan, node_steps. rewrite !map_raw_items.
  f_equal. f_equal.
  - apply map_ext. intros [nid node]. unfold raw_node_step. cbn [fst snd].
    now rewrite as_item_raw_of.
  - apply map_ext. intros [eid edge].
    unfold raw_edge_step, edge_step. cbn [fst snd].
    destruct (EDGE_REGEX_match eid) as [m|]; [|reflexivity].
    rewrite !get_raw_items.
    destruct (get nodes (group1 m)) as [n1|]; [|reflexivity].
    destruct (get nodes (group3 m)) as [n2|]; [|reflexivity].
    cbn [option_map].
    destruct (get DIRECTION_NAME_TABLE (group2 m)); [|reflexivity].
    now rewrite !as_item_raw_of.
Qed.

(** [main] over items is [main] over the instances that hold a string
    label and dictionary properties. *)
Lemma raw_main_items store commit_store clear nodes edges :
  raw_main py_str store commit_store clear (raw_items nodes) (raw_items edges)
  = main store commit_store clear nodes edges.
Proof.
  now rewrite raw_main_runs_plan, main_runs_plan, raw_plan_items.
Qed.

End Typed.

Lemma In_raw_plan py_str clear nodes edges st :
  In st (raw_plan py_str clear nodes edges) ->
  (exists s, st = Issue s)
  \/ (exists nid node, In (nid, node) nodes /\ st = raw_node_step py_str node)
  \/ (exists eid edge, In (eid, edge) edges /\
                       st = raw_edge_step py_str nodes (eid, edge)).
Proof.
  unfold raw_plan. intros H.
  apply in_app_or in H as [H|H]; [|apply in_app_or in H as [H|H]].
  - apply in_map_iff in H as [s [<- _]]. left. now exists s.
  - apply in_map_iff in H as [[nid node] [<- Hin]]. right. left. eauto.
  - apply in_map_iff in H as [[eid edge] [<- Hin]]. right. right. eauto.
Qed.

End RawFacts.

Import RawFacts.

(** X9. Every exception that ends the [try] block of [main], run on the
    instances as the comprehensions built them, has a cause in the
    description or in the store.  A non-conforming identifier is a key of
    the edges that the pattern does not match; an unknown node is an
    endpoint, absent from the nodes, of a key of the edges that the pattern
    matches, the left one or else the right one; a store error is the
    answer of the store to the last statement handed to [tx.run]; the
    [AttributeError] of [query_str] comes with the properties of a node or
    of an edge of the description that are not a dictionary; and a
    [KeyError] is never raised: the subscripts of [nodes] and of
    [DIRECTION_NAME_TABLE] always find their key. *)
Theorem upload_errors_have_a_cause
  (py_str : value -> string) (store : Store) (clear : bool)
  (nodes edges : dict RawItem) :
  match raw_try_block py_str store clear nodes edges [] with
  | (Ok _, _) => True
  | (Raise ex, log) =>
      match ex with
      | EdgeNotConforming eid =>
          In eid (keys edges) /\ EDGE_REGEX_match eid = None
      | EdgeUnknownNode eid nid =>
          In eid (keys edges) /\ contains nodes nid = false /\
          exists m, EDGE_REGEX_match eid = Some m /\
                    (nid = group1 m \/
                     nid = group3 m /\ contains nodes (group1 m) = true)
      | KeyError _ => False
      | StoreError msg =>
          exists pre s, log = (pre ++ [s])%list /\ store pre s = Some msg
      | NoItemsAttribute v =>
          (forall props, v <> VDict props) /\
          ((exists nid node, In (nid, node) nodes /\ raw_properties node = v)
           \/ (exists eid edge,
                 In (eid, edge) edges /\ raw_properties edge = v))
      end
  end.
Proof.
  rewrite raw_try_block_plan.
  destruct (RunFacts.run_steps_cases store
              (raw_plan py_str clear nodes edges) [])
    as [Hall | (pre & st & post & ex & Hsteps & Hpre & Hst)].
  - now rewrite RunFacts.run_steps_all_succeed.
  - rewrite Hsteps,
      (RunFacts.run_steps_first_failure store pre st post (ex:=ex))
      by assumption.
    simpl in Hst |- *.
    assert (Hnot : forall self : RawItem,
              ~ has_dict_properties self ->
              forall props, raw_properties self <> VDict props).
    { intros self Hn props E. apply Hn. now exists props. }
    destruct st as [s|ex'].
    + simpl in Hst. destruct (store (issued pre) s) as [msg|] eqn:E;
        [|discriminate].
      injection Hst as <-. exists (issued pre), s. now split.
    + simpl in Hst. injection Hst as ->.
      assert (Hin : In (Fail ex) (raw_plan py_str clear nodes edges)).
      { rewrite Hsteps. apply in_or_app. right. now left. }
      apply In_raw_plan in Hin
        as [[s Hs] | [(nid & node & Hin & Hstep)
                     | (eid & edge & Hin & Hstep)]];
        [discriminate | |].
      * unfold raw_node_step in Hstep.
        destruct (as_item py_str Node node) as [item|ex0] eqn:A;
          [discriminate|].
        injection Hstep as ->. apply as_item_raise in A as [-> Hn].
        split; [now apply Hnot|]. left. now exists nid, node.
      * assert (Hkey : In eid (keys edges)).
        { change eid with (fst (eid, edge)). now apply in_map. }
        symmetry in Hstep.
        apply raw_edge_step_fail in Hstep
          as [[-> Hm]
             | [(m & nid & -> & Hm & Hnid & Hwhich)
               | [(m & nid & node & Hm & _ & Hget & -> & Hn)
                 | [-> Hn]]]].
        -- now split.
        -- repeat split; trivial. now exists m.
        -- split; [now apply Hnot|]. left. exists nid, node.
           split; [now apply DictFacts.get_Some_In | reflexivity].
        -- split; [now apply Hnot|]. right. now exists eid, edge.
Qed.






